(** * Score-Counter: the mutation engine of [supabase/schema.sql]

    A shallow embedding of the two tables ([scores], [score_actions]) and of
    the six PL/pgSQL functions of the schema ([check_rate_limit],
    [increment_team], [decrement_team], [reset_team], [reset_all],
    [undo_last_action]), followed by the properties of the ledger.

    Conventions of the embedding.
    - A call runs as one transaction.  [NOW()] is the start time of the
      transaction, so every function takes it as the argument [now] and all
      rows written by one call carry the same time stamp.
    - [INTEGER] is PostgreSQL's 32-bit integer: arithmetic that leaves the
      range raises [integer_out_of_range]; an error aborts the transaction,
      so a raised call leaves the database as it was ([commit]).
    - Arguments are non-NULL values, as the RPC callers of the repository
      pass them. *)

From Stdlib Require Import ZArith Ascii String List Lia.
From stdpp Require Import gmap strings list fin_maps pretty.

Local Open Scope string_scope.
Local Open Scope list_scope.
Local Open Scope Z_scope.

(** ** SQL values *)

(** [TIMESTAMPTZ]: microseconds since the epoch. *)
Definition timestamptz := Z.

(** An [INTERVAL] of [n] seconds, in microseconds. *)
Definition seconds (n : Z) : Z := n * 1000000.

(** [UUID] values.  [gen_random_uuid()] is modelled by the number of rows
    already in [score_actions]: rows are never deleted, so the value is
    fresh, which is what the primary key relies on. *)
Abbreviation uuid := nat.

Definition int4_min : Z := -2147483648.
Definition int4_max : Z := 2147483647.

Inductive sql_error :=
  | integer_out_of_range
  | check_violation
  | not_null_violation.

(** Statements either complete with a value or raise. *)
Inductive exec (A : Type) :=
  | Ok (a : A)
  | Raise (e : sql_error).
Arguments Ok {A} a.
Arguments Raise {A} e.

#[global] Instance exec_ret : MRet exec := λ A a, Ok a.
#[global] Instance exec_bind : MBind exec := λ A B f m,
  match m with
  | Ok a => f a
  | Raise e => Raise e
  end.

Definition int4 (z : Z) : exec Z :=
  if decide (int4_min ≤ z ≤ int4_max) then Ok z else Raise integer_out_of_range.

Definition int4_add (a b : Z) : exec Z := int4 (a + b).
Definition int4_sub (a b : Z) : exec Z := int4 (a - b).
Definition int4_neg (a : Z) : exec Z := int4 (- a).

Definition GREATEST (a b : Z) : Z := Z.max a b.
Definition LEAST (a b : Z) : Z := Z.min a b.

(** ** JSON results *)

Inductive json_value :=
  | JBool (b : bool)
  | JInt (n : Z)
  | JText (s : string)
  | JUuid (u : uuid).

Definition json := list (string * json_value).

Definition json_build_object (fields : list (string * json_value)) : json := fields.

Fixpoint json_get (k : string) (j : json) : option json_value :=
  match j with
  | [] => None
  | (k', v) :: j' => if decide (k' = k) then Some v else json_get k j'
  end.

(** ** Tables *)

(** A row of [scores], keyed by its primary key [team]. *)
Record score_row := {
  score : Z;
  updated_at : timestamptz
}.

(** A row of [score_actions]. *)
Record score_action := {
  id : uuid;
  team : string;
  delta : Z;
  prev_score : Z;
  new_score : Z;
  client_id : string;
  action_type : string;
  reverts_action_id : option uuid;
  undone : bool;
  undone_at : option timestamptz;
  created_at : timestamptz
}.

(** The database: [scores] as a map on its primary key, [score_actions] in
    insertion order. *)
Record db := {
  scores : gmap string score_row;
  score_actions : list score_action
}.

(** The result of a call: the new database and the JSON answer, or an
    error. *)
Definition outcome := exec (db * json).

(** An error rolls the transaction back. *)
Definition commit (st : db) (o : outcome) : db :=
  match o with
  | Ok (st', _) => st'
  | Raise _ => st
  end.

(** [INSERT INTO scores ... VALUES ('blue',0),('green',0),('yellow',0),('red',0)]
    at time [t0]. *)
Definition seed_db (t0 : timestamptz) : db :=
  {| scores :=
       <["blue" := {| score := 0; updated_at := t0 |}]>
       (<["green" := {| score := 0; updated_at := t0 |}]>
       (<["yellow" := {| score := 0; updated_at := t0 |}]>
       (<["red" := {| score := 0; updated_at := t0 |}]> ∅)));
     score_actions := [] |}.

(** ** Statements shared by the functions *)

(** [SELECT score INTO v FROM scores WHERE team = p_team FOR UPDATE]. *)
Definition select_score (st : db) (p_team : string) : option Z :=
  score <$> scores st !! p_team.

(** [UPDATE scores SET score = v, updated_at = NOW() WHERE team = p_team],
    under [CHECK (score >= 0)]. *)
Definition update_score (st : db) (now : timestamptz) (p_team : string) (v : Z) : exec db :=
  match scores st !! p_team with
  | None => Ok st
  | Some _ =>
      if decide (0 ≤ v)
      then Ok {| scores := <[p_team := {| score := v; updated_at := now |}]> (scores st);
                 score_actions := score_actions st |}
      else Raise check_violation
  end.

(** [INSERT INTO score_actions (team, delta, prev_score, new_score,
    client_id, action_type [, reverts_action_id]) VALUES (...) RETURNING id]:
    [id], [undone], [undone_at] and [created_at] take their defaults. *)
Definition insert_action (st : db) (now : timestamptz) (p_team : string)
    (p_delta p_prev p_new : Z) (p_client_id p_type : string)
    (p_reverts : option uuid) : db * uuid :=
  let new_id := length (score_actions st) in
  ({| scores := scores st;
      score_actions := score_actions st ++
        [ {| id := new_id; team := p_team; delta := p_delta;
             prev_score := p_prev; new_score := p_new;
             client_id := p_client_id; action_type := p_type;
             reverts_action_id := p_reverts;
             undone := false; undone_at := None; created_at := now |} ] |},
   new_id).

(** ** [check_rate_limit] *)

Definition rate_limit_max : Z := 5.
Definition rate_limit_window : Z := seconds 10.

(** The [WHERE] clause of the count. *)
Definition recent_by (now : timestamptz) (p_client_id : string) (a : score_action) : Prop :=
  client_id a = p_client_id ∧ created_at a > now - rate_limit_window.

#[global] Instance recent_by_dec now c a : Decision (recent_by now c a).
Proof. unfold recent_by. apply _. Defined.

Definition action_count (st : db) (now : timestamptz) (p_client_id : string) : Z :=
  Z.of_nat (length (filter (recent_by now p_client_id) (score_actions st))).

(** [TRUE] when the client is rate-limited. *)
Definition check_rate_limit (st : db) (now : timestamptz) (p_client_id : string) : bool :=
  bool_decide (action_count st now p_client_id >= rate_limit_max).

Definition rate_limited : json :=
  json_build_object
    [("success", JBool false);
     ("error", JText "Rate limited. Please wait a few seconds.")].

Definition team_not_found : json :=
  json_build_object
    [("success", JBool false);
     ("error", JText "Team not found")].

(** ** [increment_team] *)

Definition increment_team (st : db) (now : timestamptz)
    (p_team p_client_id : string) (p_amount : Z) : outcome :=
  let v_amount := GREATEST 1 (LEAST p_amount 100) in
  if check_rate_limit st now p_client_id then Ok (st, rate_limited)
  else
    match select_score st p_team with
    | None => Ok (st, team_not_found)
    | Some v_prev_score =>
        v_new_score ← int4_add v_prev_score v_amount;
        st1 ← update_score st now p_team v_new_score;
        let '(st2, v_action_id) :=
          insert_action st1 now p_team v_amount v_prev_score v_new_score
            p_client_id "increment" None in
        mret (st2, json_build_object
          [("success", JBool true);
           ("team", JText p_team);
           ("prev_score", JInt v_prev_score);
           ("new_score", JInt v_new_score);
           ("action_id", JUuid v_action_id)])
    end.

(** ** [decrement_team] *)

Definition decrement_team (st : db) (now : timestamptz)
    (p_team p_client_id : string) (p_amount : Z) : outcome :=
  let v_amount := GREATEST 1 (LEAST p_amount 100) in
  if check_rate_limit st now p_client_id then Ok (st, rate_limited)
  else
    match select_score st p_team with
    | None => Ok (st, team_not_found)
    | Some v_prev_score =>
        d ← int4_sub v_prev_score v_amount;
        let v_new_score := GREATEST d 0 in
        v_actual_delta ← int4_sub v_prev_score v_new_score;
        if decide (v_actual_delta = 0) then
          mret (st, json_build_object
            [("success", JBool false);
             ("error", JText "Score is already at 0")])
        else
          st1 ← update_score st now p_team v_new_score;
          neg_delta ← int4_neg v_actual_delta;
          let '(st2, v_action_id) :=
            insert_action st1 now p_team neg_delta v_prev_score v_new_score
              p_client_id "decrement" None in
          mret (st2, json_build_object
            [("success", JBool true);
             ("team", JText p_team);
             ("prev_score", JInt v_prev_score);
             ("new_score", JInt v_new_score);
             ("action_id", JUuid v_action_id)])
    end.

(** ** [reset_team] *)

Definition reset_team (st : db) (now : timestamptz)
    (p_team p_client_id : string) : outcome :=
  if check_rate_limit st now p_client_id then Ok (st, rate_limited)
  else
    match select_score st p_team with
    | None => Ok (st, team_not_found)
    | Some v_prev_score =>
        if decide (v_prev_score = 0) then
          mret (st, json_build_object
            [("success", JBool true);
             ("team", JText p_team);
             ("message", JText "Score is already 0")])
        else
          st1 ← update_score st now p_team 0;
          neg_prev ← int4_neg v_prev_score;
          let '(st2, v_action_id) :=
            insert_action st1 now p_team neg_prev v_prev_score 0
              p_client_id "reset" None in
          mret (st2, json_build_object
            [("success", JBool true);
             ("team", JText p_team);
             ("prev_score", JInt v_prev_score);
             ("new_score", JInt 0);
             ("action_id", JUuid v_action_id)])
    end.

(** ** [reset_all] *)

(** [SELECT team, score FROM scores WHERE score > 0 FOR UPDATE]: the rows the
    loop runs over, read once when the loop starts.  The query has no
    [ORDER BY]; the rows come in the order of the map's listing. *)
Definition positive_rows (st : db) : list (string * score_row) :=
  filter (λ r, score r.2 > 0) (map_to_list (scores st)).

(** One iteration of the loop body. *)
Definition reset_all_body (now : timestamptz) (p_client_id : string)
    (acc : db * Z) (v_team : string * score_row) : exec (db * Z) :=
  let '(st, v_actions_created) := acc in
  st1 ← update_score st now v_team.1 0;
  neg_score ← int4_neg (score v_team.2);
  let '(st2, _) :=
    insert_action st1 now v_team.1 neg_score (score v_team.2) 0
      p_client_id "reset_all" None in
  n ← int4_add v_actions_created 1;
  mret (st2, n).

Fixpoint for_loop {A B : Type} (body : A → B → exec A) (acc : A) (rows : list B) : exec A :=
  match rows with
  | [] => Ok acc
  | r :: rows' => acc' ← body acc r; for_loop body acc' rows'
  end.

Definition reset_all (st : db) (now : timestamptz) (p_client_id : string) : outcome :=
  if check_rate_limit st now p_client_id then Ok (st, rate_limited)
  else
    '(st', v_actions_created) ←
      for_loop (reset_all_body now p_client_id) (st, 0) (positive_rows st);
    mret (st', json_build_object
      [("success", JBool true);
       ("teams_reset", JInt v_actions_created)]).

(** ** [undo_last_action] *)

Definition v_undo_window : Z := seconds 60.

(** The [WHERE] clause of the search for the action to undo. *)
Definition undoable (now : timestamptz) (p_client_id : string) (a : score_action) : Prop :=
  client_id a = p_client_id
  ∧ undone a = false
  ∧ action_type a ≠ "undo"
  ∧ created_at a > now - v_undo_window.

#[global] Instance undoable_dec now c a : Decision (undoable now c a).
Proof. unfold undoable. apply _. Defined.

(** [ORDER BY created_at DESC LIMIT 1]: a row of greatest [created_at].
    PostgreSQL leaves the choice among rows of equal [created_at] open; here
    the row inserted last is taken. *)
Fixpoint order_by_created_at_desc_limit_1 (rows : list score_action) : option score_action :=
  match rows with
  | [] => None
  | a :: rows' =>
      match order_by_created_at_desc_limit_1 rows' with
      | Some b => if decide (created_at a > created_at b) then Some a else Some b
      | None => Some a
      end
  end.

Definition select_undoable (st : db) (now : timestamptz) (p_client_id : string)
    : option score_action :=
  order_by_created_at_desc_limit_1 (filter (undoable now p_client_id) (score_actions st)).

(** [SET undone = TRUE, undone_at = NOW()] on one row. *)
Definition set_undone (now : timestamptz) (a : score_action) : score_action :=
  {| id := id a; team := team a; delta := delta a;
     prev_score := prev_score a; new_score := new_score a;
     client_id := client_id a; action_type := action_type a;
     reverts_action_id := reverts_action_id a;
     undone := true; undone_at := Some now;
     created_at := created_at a |}.

(** [UPDATE score_actions SET undone = TRUE, undone_at = NOW() WHERE id = p_id]. *)
Definition mark_undone (st : db) (now : timestamptz) (p_id : uuid) : db :=
  {| scores := scores st;
     score_actions :=
       (λ a, if decide (id a = p_id) then set_undone now a else a)
         <$> score_actions st |}.

Definition no_undoable_action : json :=
  json_build_object
    [("success", JBool false);
     ("error", JText "No undoable action found (must be within 60 seconds)")].

Definition undo_last_action (st : db) (now : timestamptz) (p_client_id : string) : outcome :=
  if check_rate_limit st now p_client_id then Ok (st, rate_limited)
  else
    match select_undoable st now p_client_id with
    | None => Ok (st, no_undoable_action)
    | Some v_action =>
        match select_score st (team v_action) with
        | None =>
            (* no row: [v_current_score] is NULL and the insert of the undo
               row breaks [prev_score INTEGER NOT NULL] *)
            Raise not_null_violation
        | Some v_current_score =>
            d ← int4_sub v_current_score (delta v_action);
            let v_new_score := GREATEST d 0 in
            st1 ← update_score st now (team v_action) v_new_score;
            let st2 := mark_undone st1 now (id v_action) in
            neg_delta ← int4_neg (delta v_action);
            let '(st3, v_undo_action_id) :=
              insert_action st2 now (team v_action) neg_delta
                v_current_score v_new_score p_client_id "undo"
                (Some (id v_action)) in
            mret (st3, json_build_object
              [("success", JBool true);
               ("team", JText (team v_action));
               ("prev_score", JInt v_current_score);
               ("new_score", JInt v_new_score);
               ("reverted_action_id", JUuid (id v_action));
               ("undo_action_id", JUuid v_undo_action_id)])
        end
    end.

(** ** Calls and reachable states *)

Inductive call :=
  | Increment (p_team p_client_id : string) (p_amount : Z)
  | Decrement (p_team p_client_id : string) (p_amount : Z)
  | Reset (p_team p_client_id : string)
  | ResetAll (p_client_id : string)
  | Undo (p_client_id : string).

Definition caller (c : call) : string :=
  match c with
  | Increment _ p _ | Decrement _ p _ | Reset _ p | ResetAll p | Undo p => p
  end.

Definition rpc (st : db) (now : timestamptz) (c : call) : outcome :=
  match c with
  | Increment t p n => increment_team st now t p n
  | Decrement t p n => decrement_team st now t p n
  | Reset t p => reset_team st now t p
  | ResetAll p => reset_all st now p
  | Undo p => undo_last_action st now p
  end.

(** Run a sequence of timed calls, each in its own transaction. *)
Fixpoint run (st : db) (calls : list (timestamptz * call)) : db :=
  match calls with
  | [] => st
  | (now, c) :: calls' => run (commit st (rpc st now c)) calls'
  end.

(** The states the database goes through from the seed. *)
Inductive reachable : db → Prop :=
  | reachable_seed t0 : reachable (seed_db t0)
  | reachable_step st now c : reachable st → reachable (commit st (rpc st now c)).

(** The sum of a column over the rows of one team. *)
Definition sum_col (col : score_action → Z) (l : list score_action) (p_team : string) : Z :=
  foldr Z.add 0 (col <$> filter (λ a, team a = p_team) l).

(** The sum of the [delta] column over the rows of one team. *)
Definition sum_deltas (st : db) (p_team : string) : Z :=
  sum_col delta (score_actions st) p_team.

(** The change of score a row records in its [prev_score] and [new_score]
    columns. *)
Definition applied (a : score_action) : Z := new_score a - prev_score a.

(** The score of a team, 0 for a name that is not a team. *)
Definition score_of (st : db) (p_team : string) : Z :=
  default 0 (select_score st p_team).

(** ** Schema constraints and the vocabulary of the properties *)

(** What the column types and constraints of the schema guarantee of a
    database: [score INTEGER ... CHECK (score >= 0)], the primary key of
    [score_actions] (the [id] of a row is its position), the foreign key
    [team REFERENCES scores(team)], and the bound on the [delta] column that
    the functions maintain.  The row count of [scores] fits the [INTEGER]
    counter of [reset_all]. *)
Record db_ok (st : db) : Prop := {
  ok_score : ∀ t row, scores st !! t = Some row → 0 ≤ score row ≤ int4_max;
  ok_rows : Z.of_nat (size (scores st)) ≤ int4_max;
  ok_id : ∀ (i : nat) a, score_actions st !! i = Some a → id a = i;
  ok_team : ∀ a, a ∈ score_actions st → is_Some (scores st !! team a);
  ok_delta : ∀ a, a ∈ score_actions st → - int4_max ≤ delta a ≤ int4_max
}.

(** The row [reset_all] logs for the [scores] row [r]. *)
Definition reset_all_action (new_id : uuid) (now : timestamptz)
    (p_client_id : string) (r : string * score_row) : score_action :=
  {| id := new_id; team := r.1; delta := - score r.2;
     prev_score := score r.2; new_score := 0;
     client_id := p_client_id; action_type := "reset_all";
     reverts_action_id := None;
     undone := false; undone_at := None; created_at := now |}.

(** The rows [reset_all] logs for the rows it loops over, in order. *)
Fixpoint reset_all_actions (next_id : uuid) (now : timestamptz)
    (p_client_id : string) (rows : list (string * score_row)) : list score_action :=
  match rows with
  | [] => []
  | r :: rows' =>
      reset_all_action next_id now p_client_id r
        :: reset_all_actions (S next_id) now p_client_id rows'
  end.

(** The [scores] table after the loop of [reset_all] over [rows]. *)
Definition reset_rows (now : timestamptz) (m : gmap string score_row)
    (rows : list (string * score_row)) : gmap string score_row :=
  foldl (λ m r, <[r.1 := {| score := 0; updated_at := now |}]> m) m rows.

(** The number of teams above zero. *)
Definition teams_above_zero (st : db) : nat :=
  size (filter (λ r : string * score_row, score r.2 > 0) (scores st)).


(** The row [undo_last_action] logs when it reverts [a] on a team whose
    score is [cur]. *)
Definition undo_action (new_id : uuid) (now : timestamptz) (p_client_id : string)
    (a : score_action) (cur : Z) : score_action :=
  {| id := new_id; team := team a; delta := - delta a;
     prev_score := cur; new_score := GREATEST (cur - delta a) 0;
     client_id := p_client_id; action_type := "undo";
     reverts_action_id := Some (id a);
     undone := false; undone_at := None; created_at := now |}.

(** ** What one call writes *)

(** The row an [INSERT INTO score_actions] builds. *)
Definition new_action (new_id : uuid) (now : timestamptz) (p_team : string)
    (p_delta p_prev p_new : Z) (p_client_id p_type : string)
    (p_reverts : option uuid) : score_action :=
  {| id := new_id; team := p_team; delta := p_delta;
     prev_score := p_prev; new_score := p_new;
     client_id := p_client_id; action_type := p_type;
     reverts_action_id := p_reverts;
     undone := false; undone_at := None; created_at := now |}.

(** The team a call names, if it names one. *)
Definition call_team (c : call) : option string :=
  match c with
  | Increment t _ _ | Decrement t _ _ | Reset t _ => Some t
  | ResetAll _ | Undo _ => None
  end.

(** The [action_type] of the rows a call writes. *)
Definition call_type (c : call) : string :=
  match c with
  | Increment _ _ _ => "increment"
  | Decrement _ _ _ => "decrement"
  | Reset _ _ => "reset"
  | ResetAll _ => "reset_all"
  | Undo _ => "undo"
  end.

(** The columns [action_type], [delta], [prev_score] and [new_score] of the
    row a single-team function writes. *)
Inductive single_kind : string → Z → Z → Z → Prop :=
  | kind_increment prev d :
      1 ≤ d ≤ 100 → prev + d ≤ int4_max →
      single_kind "increment" d prev (prev + d)
  | kind_decrement prev nw :
      0 ≤ nw < prev → prev - nw ≤ 100 →
      single_kind "decrement" (- (prev - nw)) prev nw
  | kind_reset prev :
      0 < prev →
      single_kind "reset" (- prev) prev 0.

(** The database a call leaves behind: the one it found, or one of three
    kinds of write. *)
Inductive wrote (st : db) (now : timestamptz) (c : call) : db → Prop :=
  | wrote_nothing : wrote st now c st
  | wrote_one t row d nw :
      call_team c = Some t →
      scores st !! t = Some row →
      single_kind (call_type c) d (score row) nw →
      wrote st now c
        {| scores := <[t := {| score := nw; updated_at := now |}]> (scores st);
           score_actions := score_actions st ++
             [new_action (length (score_actions st)) now t d (score row) nw
                (caller c) (call_type c) None] |}
  | wrote_all :
      c = ResetAll (caller c) →
      wrote st now c
        {| scores := reset_rows now (scores st) (positive_rows st);
           score_actions := score_actions st ++
             reset_all_actions (length (score_actions st)) now (caller c)
               (positive_rows st) |}
  | wrote_undo a row :
      c = Undo (caller c) →
      select_undoable st now (caller c) = Some a →
      scores st !! team a = Some row →
      score row - delta a ≤ int4_max →
      wrote st now c
        {| scores := <[team a := {| score := GREATEST (score row - delta a) 0;
                                    updated_at := now |}]> (scores st);
           score_actions :=
             ((λ b, if decide (id b = id a) then set_undone now b else b)
                <$> score_actions st)
             ++ [undo_action (length (score_actions st)) now (caller c) a (score row)] |}.

(** ** Invariants of the log *)

(** What the columns of a row say about one another, by [action_type]. *)
Definition row_typed (a : score_action) : Prop :=
  0 ≤ prev_score a ≤ int4_max
  ∧ 0 ≤ new_score a ≤ int4_max
  ∧ ((action_type a = "increment" ∧ 1 ≤ delta a ≤ 100
      ∧ new_score a = prev_score a + delta a ∧ reverts_action_id a = None)
     ∨ (action_type a = "decrement" ∧ -100 ≤ delta a ≤ -1
        ∧ new_score a = prev_score a + delta a ∧ reverts_action_id a = None)
     ∨ ((action_type a = "reset" ∨ action_type a = "reset_all")
        ∧ 0 < prev_score a ∧ new_score a = 0 ∧ delta a = - prev_score a
        ∧ reverts_action_id a = None)
     ∨ (action_type a = "undo" ∧ is_Some (reverts_action_id a)
        ∧ new_score a = Z.max (prev_score a + delta a) 0)).

(** Every undo row points back at an earlier row that is not an undo, is of
    the same client and team, is flagged undone and has the opposite delta;
    no other row points anywhere, and no undo row is itself undone. *)
Definition undo_links (l : list score_action) : Prop :=
  ∀ (i : nat) u, l !! i = Some u →
    match reverts_action_id u with
    | None => action_type u ≠ "undo"
    | Some k =>
        action_type u = "undo" ∧ undone u = false
        ∧ ∃ a, (k < i)%nat ∧ l !! k = Some a
               ∧ action_type a ≠ "undo"
               ∧ client_id a = client_id u ∧ team a = team u
               ∧ undone a = true ∧ delta u = - delta a
    end.

(** The number of undo rows that point at row [i]. *)
Definition ref_count (l : list score_action) (i : nat) : nat :=
  length (filter (λ u, reverts_action_id u = Some i) l).

(** The last row logged for a team. *)
Definition last_of_team (l : list score_action) (p_team : string) : option score_action :=
  last (filter (λ a, team a = p_team) l).

(** ** Reachable states with a clock *)

(** The states reached by calls whose times never go back; the first
    argument is the time of the last call (of the seed, at first). *)
Inductive reachable_at : timestamptz → db → Prop :=
  | reachable_at_seed t0 : reachable_at t0 (seed_db t0)
  | reachable_at_step t st now c :
      reachable_at t st → t ≤ now →
      reachable_at now (commit st (rpc st now c)).

(** The times of a list of calls never go back, starting from [t]. *)
Fixpoint ascending (t : timestamptz) (calls : list (timestamptz * call)) : Prop :=
  match calls with
  | [] => True
  | (now, _) :: calls' => t ≤ now ∧ ascending now calls'
  end.

(** The time of the last call of a list, [t] for the empty list. *)
Fixpoint last_time (t : timestamptz) (calls : list (timestamptz * call)) : timestamptz :=
  match calls with
  | [] => t
  | (now, _) :: calls' => last_time now calls'
  end.

(** The [created_at] column never decreases along the log. *)
Definition log_in_time_order (l : list score_action) : Prop :=
  ∀ (i j : nat) a b, l !! i = Some a → l !! j = Some b → (i ≤ j)%nat →
    created_at a ≤ created_at b.

(** ** The page: [lib/clientId.ts] *)

Definition CLIENT_ID_KEY : string := "realtime-scores-client-id".

(** [`client_${Date.now()}_${Math.random().toString(36).substring(2, 11)}`]:
    the clock, in milliseconds, and the random tail are inputs. *)
Definition generateClientId (date_now : Z) (random_tail : string) : string :=
  "client_" +:+ pretty date_now +:+ "_" +:+ random_tail.

(** [getClientId]: [window_defined] tells the browser from the server,
    [localStorage] is a map from keys to strings.  The function returns the
    id and the storage it leaves.  [!clientId] holds for [null] and for the
    empty string. *)
Definition getClientId (window_defined : bool) (date_now : Z) (random_tail : string)
    (localStorage : gmap string string) : string * gmap string string :=
  if negb window_defined then ("server", localStorage)
  else
    match localStorage !! CLIENT_ID_KEY with
    | Some clientId =>
        if decide (clientId = "") then
          let clientId := generateClientId date_now random_tail in
          (clientId, <[CLIENT_ID_KEY := clientId]> localStorage)
        else (clientId, localStorage)
    | None =>
        let clientId := generateClientId date_now random_tail in
        (clientId, <[CLIENT_ID_KEY := clientId]> localStorage)
    end.

(** No character of the string is an underscore. *)
Fixpoint underscore_free (s : string) : Prop :=
  match s with
  | EmptyString => True
  | String c s' => c ≠ "_"%char ∧ underscore_free s'
  end.

(** ** The page: the realtime handlers and [callRpc] *)

(** [setActions((prev) => [payload.new, ...prev].slice(0, 20))]. *)
Definition on_action_insert (payload_new : option score_action)
    (prev : list score_action) : list score_action :=
  match payload_new with
  | Some a => take 20 (a :: prev)
  | None => prev
  end.

(** [setActions((prev) => prev.map((a) => a.id === payload.new.id ?
    payload.new : a))]. *)
Definition on_action_update (payload_new : option score_action)
    (prev : list score_action) : list score_action :=
  match payload_new with
  | Some a' => (λ a, if decide (id a = id a') then a' else a) <$> prev
  | None => prev
  end.

(** The handler of changes of [scores]: the payload may lack a row, a team
    or a numeric score; an empty team name is falsy. *)
Definition on_score_change (payload_new : option (option string * option Z))
    (prev : gmap string Z) : gmap string Z :=
  match payload_new with
  | Some (Some p_team, Some p_score) =>
      if decide (p_team = "") then prev else <[p_team := p_score]> prev
  | _ => prev
  end.

(** [scores[team] ?? 0], the number a team card shows. *)
Definition displayed_score (view : gmap string Z) (p_team : string) : Z :=
  default 0 (view !! p_team).

(** JavaScript truthiness of a field of an answer; a missing field is
    [undefined]. *)
Definition truthy (v : option json_value) : bool :=
  match v with
  | None => false
  | Some (JBool b) => b
  | Some (JInt n) => bool_decide (n ≠ 0)
  | Some (JText s) => bool_decide (s ≠ "")
  | Some (JUuid _) => true
  end.

(** What [supabase.rpc] resolves to: an error with its message, or data. *)
Inductive rpc_result :=
  | RpcError (message : string)
  | RpcData (data : json).

(** A toast: its message and its type. *)
Definition toast := (json_value * string)%type.

(** [callRpc]: the response handed to the caller ([null] as [None]) and the
    toast shown, if any. *)
Definition callRpc (res : rpc_result) : option json * option toast :=
  match res with
  | RpcError message => (None, Some (JText message, "error"))
  | RpcData response =>
      if negb (truthy (json_get "success" response)) then
        (None,
         Some (match json_get "error" response with
               | Some e => if truthy (Some e) then e else JText "Operation failed"
               | None => JText "Operation failed"
               end, "error"))
      else (Some response, None)
  end.

(** [handleUndo]: the toasts shown, in order. *)
Definition handleUndo (res : rpc_result) : list toast :=
  match callRpc res with
  | (Some _, t) => option_list t ++ [(JText "Action undone", "success")]
  | (None, t) => option_list t
  end.

(** ** The page: [HistoryPanel] *)

(** [formatActionType]; [`${action.delta}`] prints the integer in decimal. *)
Definition formatActionType (action : score_action) : string :=
  if decide (action_type action = "increment") then "+" +:+ pretty (delta action)
  else if decide (action_type action = "decrement") then pretty (delta action)
  else if decide (action_type action = "reset") then "reset"
  else if decide (action_type action = "reset_all") then "reset all"
  else if decide (action_type action = "undo") then "undo"
  else action_type action.

(** [formatTime], on [diffMs = now.getTime() - date.getTime()]; the result of
    [date.toLocaleDateString()] is an input.  [Math.floor] of a quotient is
    the floor division of [Z]. *)
Definition formatTime (diffMs : Z) (locale_date : string) : string :=
  let diffSecs := diffMs `div` 1000 in
  if decide (diffSecs < 60) then pretty diffSecs +:+ "s ago"
  else if decide (diffSecs < 3600) then pretty (diffSecs `div` 60) +:+ "m ago"
  else if decide (diffSecs < 86400) then pretty (diffSecs `div` 3600) +:+ "h ago"
  else locale_date.

(** ** Traces used as examples *)

(** Team blue goes to 5 by client c1 and back to 0 by client c2. *)
Definition blue_up_then_reset : list (timestamptz * call) :=
  [(seconds 1, Increment "blue" "c1" 5);
   (seconds 2, Reset "blue" "c2")].

(** Blue at 5, green at 0, yellow at 3, red at 0. *)
Definition blue5_yellow3 : list (timestamptz * call) :=
  [(seconds 1, Increment "blue" "c1" 5);
   (seconds 2, Increment "yellow" "c2" 3)].

(** Client c1 increments blue and then floors it with a decrement. *)
Definition up_then_down : list (timestamptz * call) :=
  [(seconds 1, Increment "blue" "c1" 5);
   (seconds 2, Decrement "blue" "c1" 10)].

(** Five calls of client c1 within five seconds. *)
Definition five_calls : list (timestamptz * call) :=
  [(seconds 1, Increment "blue" "c1" 1);
   (seconds 2, Increment "blue" "c1" 1);
   (seconds 3, Increment "blue" "c1" 1);
   (seconds 4, Increment "blue" "c1" 1);
   (seconds 5, Increment "blue" "c1" 1)].

(** One call of client c1, then every team above zero. *)
Definition all_teams_up : list (timestamptz * call) :=
  [(seconds 1, Increment "blue" "c1" 1);
   (seconds 2, Increment "green" "c2" 1);
   (seconds 3, Increment "yellow" "c2" 1);
   (seconds 4, Increment "red" "c2" 1)].

(** * Properties *)

(** ** The [exec] monad and 32-bit arithmetic *)

Lemma bind_Ok {A B} (f : A → exec B) (a : A) : (Ok a ≫= f) = f a.
Proof. reflexivity. Qed.

Lemma bind_Raise {A B} (f : A → exec B) (e : sql_error) : (Raise e ≫= f) = Raise e.
Proof. reflexivity. Qed.

Lemma bind_inv_Ok {A B} (f : A → exec B) (m : exec A) (b : B) :
  m ≫= f = Ok b → ∃ a, m = Ok a ∧ f a = Ok b.
Proof. destruct m as [a|e]; [eauto | discriminate]. Qed.

Lemma int4_in_range (z : Z) : int4_min ≤ z ≤ int4_max → int4 z = Ok z.
Proof. intros H. unfold int4. by rewrite decide_True. Qed.

Lemma int4_inv (z z' : Z) : int4 z = Ok z' → z' = z ∧ int4_min ≤ z ≤ int4_max.
Proof. unfold int4. case_decide; [|discriminate]. intros [= <-]. done. Qed.

Lemma int4_add_in_range (a b : Z) :
  int4_min ≤ a + b ≤ int4_max → int4_add a b = Ok (a + b).
Proof. apply int4_in_range. Qed.

Lemma int4_sub_in_range (a b : Z) :
  int4_min ≤ a - b ≤ int4_max → int4_sub a b = Ok (a - b).
Proof. apply int4_in_range. Qed.

Lemma int4_neg_in_range (a : Z) :
  int4_min ≤ - a ≤ int4_max → int4_neg a = Ok (- a).
Proof. apply int4_in_range. Qed.

Ltac int4_lia := unfold int4_min, int4_max in *; lia.

#[local] Arguments int4 : simpl never.
#[local] Arguments int4_add : simpl never.
#[local] Arguments int4_sub : simpl never.
#[local] Arguments int4_neg : simpl never.
#[local] Arguments update_score : simpl never.
#[local] Arguments GREATEST : simpl never.
#[local] Arguments LEAST : simpl never.
#[local] Arguments mark_undone : simpl never.

Lemma int4_never_check (z : Z) : int4 z ≠ Raise check_violation.
Proof. unfold int4. by case_decide. Qed.

(** The clamp [GREATEST(1, LEAST(p_amount, 100))]. *)
Lemma clamp_range (p_amount : Z) : 1 ≤ GREATEST 1 (LEAST p_amount 100) ≤ 100.
Proof. unfold GREATEST, LEAST. lia. Qed.

(** ** [check_rate_limit] *)


Lemma check_rate_limit_false (st : db) (now : timestamptz) (p : string) :
  check_rate_limit st now p = false ↔ action_count st now p < rate_limit_max.
Proof. unfold check_rate_limit. rewrite bool_decide_eq_false. lia. Qed.

(** Case analysis over the statements of a function body. *)
Ltac step_body :=
  match goal with
  | |- context [if check_rate_limit ?st ?now ?p then _ else _] =>
      destruct (check_rate_limit st now p) eqn:?; simpl
  | |- context [mbind _ ?m] => destruct m eqn:?; simpl
  | |- context [match ?m with Ok _ => _ | Raise _ => _ end] => destruct m eqn:?; simpl
  | |- context [match ?m with Some _ => _ | None => _ end] => destruct m eqn:?; simpl
  | |- context [let '(_, _) := ?p in _] => destruct p eqn:?; simpl
  | |- context [if decide ?P then _ else _] => destruct (decide P); simpl
  end.

Lemma rpc_admitted_not_rate_limited (st : db) (now : timestamptz) (c : call) :
  check_rate_limit st now (caller c) = false →
  ∀ st', rpc st now c ≠ Ok (st', rate_limited).
Proof.
  intros Hadm st'.
  destruct c; simpl in Hadm; simpl;
    unfold increment_team, decrement_team, reset_team, reset_all, undo_last_action;
    rewrite Hadm; repeat step_body; discriminate.
Qed.

Lemma rpc_rate_limited (st : db) (now : timestamptz) (c : call) :
  check_rate_limit st now (caller c) = true →
  rpc st now c = Ok (st, rate_limited).
Proof.
  intros H.
  destruct c; simpl in *;
    unfold increment_team, decrement_team, reset_team, reset_all, undo_last_action;
    by rewrite H.
Qed.


(** ** [increment_team] *)

(** C5: on a known team and for an admitted client, the counter grows by the
    clamped amount, the logged delta is the clamped amount and the answer
    reports the scores before and after. *)
Theorem increment_team_adds_clamped (st : db) (now : timestamptz)
    (p_team p_client_id : string) (p_amount : Z) (row : score_row) :
  scores st !! p_team = Some row →
  0 ≤ score row →
  check_rate_limit st now p_client_id = false →
  let v_amount := GREATEST 1 (LEAST p_amount 100) in
  ((1 ≤ p_amount ≤ 100 → v_amount = p_amount)
   ∧ (p_amount > 100 → v_amount = 100)
   ∧ (p_amount < 1 → v_amount = 1))
  ∧ (score row + v_amount ≤ int4_max →
     ∃ st' a r,
       increment_team st now p_team p_client_id p_amount = Ok (st', r)
       ∧ select_score st' p_team = Some (score row + v_amount)
       ∧ (∀ t, t ≠ p_team → scores st' !! t = scores st !! t)
       ∧ score_actions st' = score_actions st ++ [a]
       ∧ team a = p_team
       ∧ client_id a = p_client_id
       ∧ action_type a = "increment"
       ∧ delta a = v_amount
       ∧ prev_score a = score row
       ∧ new_score a = score row + v_amount
       ∧ json_get "success" r = Some (JBool true)
       ∧ json_get "prev_score" r = Some (JInt (score row))
       ∧ json_get "new_score" r = Some (JInt (score row + v_amount))
       ∧ json_get "action_id" r = Some (JUuid (id a)))
  ∧ (int4_max < score row + v_amount →
     increment_team st now p_team p_client_id p_amount = Raise integer_out_of_range).
Proof.
  intros Hrow Hpos Hadm v_amount.
  split; [unfold v_amount, GREATEST, LEAST; lia|].
  pose proof (clamp_range p_amount) as Hclamp. fold v_amount in Hclamp.
  unfold increment_team. fold v_amount. rewrite Hadm.
  assert (select_score st p_team = Some (score row)) as ->
    by (unfold select_score; by rewrite Hrow).
  split.
  - intros Hmax.
    rewrite int4_add_in_range by (unfold int4_min; lia). simpl.
    unfold update_score. rewrite Hrow, decide_True by lia. simpl.
    eexists _, _, _. split; [reflexivity|].
    unfold select_score. simpl. rewrite lookup_insert_eq.
    split_and!; try reflexivity.
    intros t Ht. by rewrite lookup_insert_ne.
  - intros Hover. unfold int4_add, int4.
    destruct (decide (int4_min ≤ score row + v_amount ≤ int4_max)); [lia|done].
Qed.

(** ** [decrement_team] *)

(** C6: on a known team above zero and for an admitted client, the counter
    becomes [max (current - clamped) 0], where the clamped amount is the
    requested one from 1 to 100, 100 above that and 1 below; the logged
    delta is the negated actual decrease, which is the whole current score
    when the floor is hit. *)
Theorem decrement_team_floors_at_zero (st : db) (now : timestamptz)
    (p_team p_client_id : string) (p_amount : Z) (row : score_row) :
  scores st !! p_team = Some row →
  0 < score row ≤ int4_max →
  check_rate_limit st now p_client_id = false →
  let v_amount := Z.max 1 (Z.min p_amount 100) in
  let v_new_score := Z.max (score row - v_amount) 0 in
  ((1 ≤ p_amount ≤ 100 → v_amount = p_amount)
   ∧ (p_amount > 100 → v_amount = 100)
   ∧ (p_amount < 1 → v_amount = 1))
  ∧ ∃ st' a r,
    decrement_team st now p_team p_client_id p_amount = Ok (st', r)
    ∧ select_score st' p_team = Some v_new_score
    ∧ 0 ≤ v_new_score
    ∧ (∀ t, t ≠ p_team → scores st' !! t = scores st !! t)
    ∧ score_actions st' = score_actions st ++ [a]
    ∧ team a = p_team
    ∧ client_id a = p_client_id
    ∧ action_type a = "decrement"
    ∧ delta a = - (score row - v_new_score)
    ∧ 0 < - delta a ≤ v_amount
    ∧ (score row < v_amount → - delta a = score row ∧ - delta a < v_amount)
    ∧ (v_amount ≤ score row → - delta a = v_amount)
    ∧ prev_score a = score row
    ∧ new_score a = v_new_score
    ∧ json_get "success" r = Some (JBool true)
    ∧ json_get "prev_score" r = Some (JInt (score row))
    ∧ json_get "new_score" r = Some (JInt v_new_score)
    ∧ json_get "action_id" r = Some (JUuid (id a)).
Proof.
  intros Hrow Hpos Hadm v_amount v_new_score.
  split; [unfold v_amount; lia|].
  assert (1 ≤ v_amount ≤ 100) as Hclamp by (unfold v_amount; lia).
  unfold decrement_team.
  change (GREATEST 1 (LEAST p_amount 100)) with v_amount.
  rewrite Hadm.
  unfold select_score at 1. rewrite Hrow. simpl.
  rewrite int4_sub_in_range by (unfold int4_min; lia). simpl.
  change (GREATEST (score row - v_amount) 0) with v_new_score.
  assert (0 ≤ v_new_score < score row) as Hnew by (unfold v_new_score; lia).
  rewrite int4_sub_in_range by (unfold int4_min; lia). simpl.
  rewrite decide_False by lia.
  unfold update_score. rewrite Hrow, decide_True by lia. simpl.
  rewrite int4_neg_in_range by (unfold int4_min; lia). simpl.
  eexists _, _, _. split; [reflexivity|].
  unfold select_score. simpl. rewrite lookup_insert_eq.
  split_and!; try reflexivity; simpl; try (unfold v_new_score; lia).
  intros t Ht. by rewrite lookup_insert_ne.
Qed.

(** ** No-ops *)

(** C9: at zero, [decrement_team] answers with a failure and [reset_team]
    with a success carrying a message and no score or action fields; neither
    writes anything. *)
Theorem noop_at_zero (st : db) (now : timestamptz)
    (p_team p_client_id : string) (p_amount : Z) (row : score_row) :
  scores st !! p_team = Some row →
  score row = 0 →
  check_rate_limit st now p_client_id = false →
  (∃ r, decrement_team st now p_team p_client_id p_amount = Ok (st, r)
        ∧ json_get "success" r = Some (JBool false)
        ∧ json_get "error" r = Some (JText "Score is already at 0")
        ∧ score row - Z.max (score row - GREATEST 1 (LEAST p_amount 100)) 0 = 0)
  ∧ (∃ r, reset_team st now p_team p_client_id = Ok (st, r)
        ∧ json_get "success" r = Some (JBool true)
        ∧ json_get "message" r = Some (JText "Score is already 0")
        ∧ json_get "error" r = None
        ∧ json_get "prev_score" r = None
        ∧ json_get "new_score" r = None
        ∧ json_get "action_id" r = None).
Proof.
  intros Hrow Hzero Hadm.
  pose proof (clamp_range p_amount) as Hclamp.
  split.
  - unfold decrement_team. rewrite Hadm.
    unfold select_score. rewrite Hrow. simpl. rewrite Hzero.
    rewrite int4_sub_in_range by (unfold int4_min, int4_max; lia).
    simpl.
    assert (GREATEST (0 - GREATEST 1 (LEAST p_amount 100)) 0 = 0) as ->
      by (unfold GREATEST at 1; lia).
    rewrite int4_sub_in_range by (unfold int4_min, int4_max; lia).
    simpl. eexists. split; [reflexivity|].
    split_and!; try reflexivity. lia.
  - unfold reset_team. rewrite Hadm.
    unfold select_score. rewrite Hrow. simpl. rewrite Hzero. simpl.
    eexists. split; [reflexivity|]. split_and!; reflexivity.
Qed.

(** ** [reset_all] *)

Lemma positive_rows_elem (st : db) (t : string) (row : score_row) :
  (t, row) ∈ positive_rows st ↔ scores st !! t = Some row ∧ score row > 0.
Proof.
  unfold positive_rows. rewrite list_elem_of_filter, elem_of_map_to_list. simpl.
  tauto.
Qed.

Lemma positive_rows_NoDup (st : db) : NoDup (positive_rows st).*1.
Proof.
  unfold positive_rows.
  eapply sublist_NoDup; [apply (NoDup_fst_map_to_list (scores st))|].
  apply fmap_sublist, sublist_filter.
Qed.

Lemma positive_rows_length (st : db) :
  length (positive_rows st) = teams_above_zero st.
Proof.
  unfold teams_above_zero, positive_rows.
  rewrite <- length_map_to_list.
  apply Permutation_length, NoDup_Permutation.
  - apply NoDup_filter, NoDup_map_to_list.
  - apply NoDup_map_to_list.
  - intros [t row]. rewrite list_elem_of_filter, !elem_of_map_to_list.
    rewrite map_lookup_filter_Some. simpl. tauto.
Qed.

Lemma reset_rows_lookup_other (now : timestamptz) (rows : list (string * score_row))
    (m : gmap string score_row) (t : string) :
  t ∉ rows.*1 → reset_rows now m rows !! t = m !! t.
Proof.
  unfold reset_rows. revert m.
  induction rows as [|[t' row'] rows IH]; intros m Hnin; [done|].
  rewrite fmap_cons, not_elem_of_cons in Hnin. destruct Hnin as [Hne Hnin].
  simpl. rewrite IH by done. by rewrite lookup_insert_ne.
Qed.

Lemma reset_rows_lookup_reset (now : timestamptz) (rows : list (string * score_row))
    (m : gmap string score_row) (t : string) :
  t ∈ rows.*1 → reset_rows now m rows !! t = Some {| score := 0; updated_at := now |}.
Proof.
  revert m.
  induction rows as [|[t' row'] rows IH]; intros m Hin.
  - by apply elem_of_nil in Hin.
  - change (reset_rows now m ((t', row') :: rows))
      with (reset_rows now (<[t' := {| score := 0; updated_at := now |}]> m) rows).
    destruct (decide (t ∈ rows.*1)) as [Hin'|Hnin]; [by apply IH|].
    rewrite reset_rows_lookup_other by done.
    rewrite fmap_cons in Hin. apply elem_of_cons in Hin as [->|?]; [|done].
    apply lookup_insert_eq.
Qed.

Lemma reset_rows_size (now : timestamptz) (rows : list (string * score_row))
    (m : gmap string score_row) :
  (∀ r, r ∈ rows → is_Some (m !! r.1)) →
  size (reset_rows now m rows) = size m.
Proof.
  unfold reset_rows. revert m.
  induction rows as [|r rows IH]; intros m Hin; simpl; [done|].
  rewrite IH.
  - destruct (Hin r) as [x Hx]; [left|]. by eapply map_size_insert_Some.
  - intros r' Hr'. rewrite lookup_insert_is_Some'. right. apply Hin. by right.
Qed.

Lemma reset_all_actions_length (k : uuid) (now : timestamptz) (p : string)
    (rows : list (string * score_row)) :
  length (reset_all_actions k now p rows) = length rows.
Proof. revert k. induction rows; intros k; simpl; [done | by rewrite IHrows]. Qed.

Lemma reset_all_actions_elem (k : uuid) (now : timestamptz) (p : string)
    (rows : list (string * score_row)) (a : score_action) :
  a ∈ reset_all_actions k now p rows →
  ∃ j r, r ∈ rows ∧ a = reset_all_action j now p r.
Proof.
  revert k. induction rows as [|r rows IH]; intros k; simpl.
  - by intros ?%elem_of_nil.
  - intros [->|Hin]%elem_of_cons.
    + exists k, r. split; [left | done].
    + destruct (IH _ Hin) as (j & r' & Hr' & ->). exists j, r'. split; [by right | done].
Qed.

Lemma reset_all_actions_lookup (k : uuid) (now : timestamptz) (p : string)
    (rows : list (string * score_row)) (i : nat) (a : score_action) :
  reset_all_actions k now p rows !! i = Some a → id a = (k + i)%nat.
Proof.
  revert k i. induction rows as [|r rows IH]; intros k i; simpl; [done|].
  destruct i as [|i]; simpl.
  - intros [= <-]. simpl. lia.
  - intros H%IH. lia.
Qed.

(** The rows logged for one team: none when the team is not looped over,
    exactly one otherwise. *)
Lemma reset_all_actions_team_absent (k : uuid) (now : timestamptz) (p : string)
    (rows : list (string * score_row)) (t : string) :
  t ∉ rows.*1 →
  filter (λ a, team a = t) (reset_all_actions k now p rows) = [].
Proof.
  revert k. induction rows as [|[t' row'] rows IH]; intros k Hnin; simpl; [done|].
  simpl in Hnin. rewrite not_elem_of_cons in Hnin. destruct Hnin as [Hne Hnin].
  rewrite filter_cons_False by (simpl; congruence). by apply IH.
Qed.

Lemma reset_all_actions_team_present (k : uuid) (now : timestamptz) (p : string)
    (rows : list (string * score_row)) (t : string) (row : score_row) :
  NoDup rows.*1 →
  (t, row) ∈ rows →
  ∃ j, filter (λ a, team a = t) (reset_all_actions k now p rows)
       = [reset_all_action j now p (t, row)].
Proof.
  revert k. induction rows as [|[t' row'] rows IH]; intros k Hnd Hin; simpl.
  - by apply elem_of_nil in Hin.
  - simpl in Hnd. apply NoDup_cons in Hnd as [Hnin Hnd].
    apply elem_of_cons in Hin as [[= <- <-]|Hin].
    + rewrite filter_cons_True by done.
      rewrite reset_all_actions_team_absent by done. by exists k.
    + rewrite filter_cons_False.
      * by apply IH.
      * simpl. intros ->. apply Hnin.
        by apply (list_elem_of_fmap_2' fst _ (t, row)).
Qed.

(** The loop of [reset_all], run to its end. *)
Lemma reset_all_loop (now : timestamptz) (p : string)
    (rows : list (string * score_row)) (st : db) (n : Z) :
  (∀ r, r ∈ rows → is_Some (scores st !! r.1) ∧ 0 < score r.2 ≤ int4_max) →
  0 ≤ n →
  n + Z.of_nat (length rows) ≤ int4_max →
  for_loop (reset_all_body now p) (st, n) rows =
    Ok ({| scores := reset_rows now (scores st) rows;
           score_actions := score_actions st
             ++ reset_all_actions (length (score_actions st)) now p rows |},
        n + Z.of_nat (length rows)).
Proof.
  revert st n. induction rows as [|[t row] rows IH]; intros st n Hrows Hn Hmax.
  - simpl. rewrite app_nil_r, Z.add_0_r. by destruct st.
  - simpl length in Hmax.
    destruct (Hrows (t, row)) as [[x Hx] Hscore]; [left|]. simpl in Hx, Hscore.
    simpl for_loop. unfold reset_all_body at 1. simpl.
    unfold update_score. rewrite Hx, decide_True by lia. simpl.
    rewrite int4_neg_in_range by int4_lia. simpl.
    rewrite int4_add_in_range by int4_lia. simpl.
    rewrite IH; [| |lia|lia].
    + simpl. rewrite length_app. simpl.
      rewrite <- app_assoc. simpl.
      replace (length (score_actions st) + 1)%nat
        with (S (length (score_actions st))) by lia.
      replace (n + 1 + Z.of_nat (length rows))
        with (n + Z.of_nat (S (length rows))) by lia.
      reflexivity.
    + intros r Hr. destruct (Hrows r) as [Hsome ?]; [by right|].
      split; [|done]. simpl. rewrite lookup_insert_is_Some'. by right.
Qed.

(** The whole of [reset_all] for an admitted client. *)
Lemma reset_all_admitted (st : db) (now : timestamptz) (p : string) :
  db_ok st →
  check_rate_limit st now p = false →
  reset_all st now p =
    Ok ({| scores := reset_rows now (scores st) (positive_rows st);
           score_actions := score_actions st
             ++ reset_all_actions (length (score_actions st)) now p (positive_rows st) |},
        json_build_object
          [("success", JBool true);
           ("teams_reset", JInt (Z.of_nat (teams_above_zero st)))]).
Proof.
  intros Hok Hadm. unfold reset_all. rewrite Hadm.
  rewrite reset_all_loop.
  - simpl. by rewrite positive_rows_length.
  - intros [t row] [Hrow Hpos]%positive_rows_elem. simpl.
    split; [by eexists|]. pose proof (ok_score st Hok t row Hrow). lia.
  - done.
  - pose proof (ok_rows st Hok) as Hsize.
    rewrite <- length_map_to_list in Hsize.
    pose proof (length_filter (λ r : string * score_row, score r.2 > 0)
                  (map_to_list (scores st))) as Hle.
    unfold positive_rows. lia.
Qed.

(** C7: for an admitted client [reset_all] sets to zero the teams above
    zero, logs one row per such team with the negated previous score,
    leaves the teams at zero alone and answers with the number of teams it
    reset; with no team above zero it writes nothing and answers 0. *)
Theorem reset_all_resets_positive_teams (st : db) (now : timestamptz) (p : string) :
  db_ok st →
  check_rate_limit st now p = false →
  ∃ st' news,
    reset_all st now p =
      Ok (st', json_build_object
                 [("success", JBool true);
                  ("teams_reset", JInt (Z.of_nat (teams_above_zero st)))])
    ∧ score_actions st' = score_actions st ++ news
    ∧ length news = teams_above_zero st
    ∧ (∀ t row, scores st !! t = Some row → score row > 0 →
         select_score st' t = Some 0
         ∧ ∃ a, filter (λ a, team a = t) news = [a]
                ∧ delta a = - score row
                ∧ prev_score a = score row
                ∧ new_score a = 0
                ∧ client_id a = p
                ∧ action_type a = "reset_all")
    ∧ (∀ t row, scores st !! t = Some row → score row = 0 →
         scores st' !! t = Some row
         ∧ filter (λ a, team a = t) news = [])
    ∧ (∀ t, scores st !! t = None → scores st' !! t = None)
    ∧ (teams_above_zero st = 0%nat → st' = st).
Proof.
  intros Hok Hadm.
  eexists _, _. split; [by apply reset_all_admitted|]. simpl.
  split; [done|].
  split; [by rewrite reset_all_actions_length, positive_rows_length|].
  assert (∀ t, (∀ row, scores st !! t = Some row → ¬ score row > 0) →
            t ∉ (positive_rows st).*1) as Hnotin.
  { intros t Hnone [[t' row] [-> [Hrow Hpos]%positive_rows_elem]]%list_elem_of_fmap_1.
    by apply (Hnone row). }
  split_and!.
  - intros t row Hrow Hpos.
    assert ((t, row) ∈ positive_rows st) as Hin by by apply positive_rows_elem.
    split.
    + unfold select_score. simpl. rewrite reset_rows_lookup_reset; [done|].
      by apply (list_elem_of_fmap_2' fst _ (t, row)).
    + destruct (reset_all_actions_team_present (length (score_actions st)) now p
                  (positive_rows st) t row (positive_rows_NoDup st) Hin) as [j Hj].
      eexists. split; [exact Hj|]. done.
  - intros t row Hrow Hzero.
    assert (t ∉ (positive_rows st).*1) as Hnin.
    { apply Hnotin. intros row' Hrow'. rewrite Hrow in Hrow'.
      injection Hrow' as <-. lia. }
    split.
    + by rewrite reset_rows_lookup_other.
    + by apply reset_all_actions_team_absent.
  - intros t Hnone. rewrite reset_rows_lookup_other; [done|].
    apply Hnotin. intros row Hrow. congruence.
  - intros Hzero. rewrite <- positive_rows_length in Hzero.
    apply nil_length_inv in Hzero. rewrite Hzero. simpl.
    rewrite app_nil_r. by destruct st.
Qed.

(** ** The schema constraints hold in every reachable state *)

Lemma update_score_inv (st st1 : db) (now : timestamptz) (t : string) (v : Z) :
  update_score st now t v = Ok st1 →
  (scores st !! t = None ∧ st1 = st)
  ∨ (is_Some (scores st !! t) ∧ 0 ≤ v
     ∧ st1 = {| scores := <[t := {| score := v; updated_at := now |}]> (scores st);
                score_actions := score_actions st |}).
Proof.
  unfold update_score. destruct (scores st !! t) eqn:Hrow.
  - case_decide; [|discriminate]. intros [= <-]. right. eauto.
  - intros [= <-]. by left.
Qed.

Lemma update_score_never_check (st : db) (now : timestamptz) (t : string) (v : Z) :
  0 ≤ v → update_score st now t v ≠ Raise check_violation.
Proof.
  intros Hv. unfold update_score. destruct (scores st !! t); [|done].
  by rewrite decide_True.
Qed.

Lemma db_ok_set_score (st : db) (now : timestamptz) (t : string) (v : Z) :
  db_ok st →
  is_Some (scores st !! t) →
  0 ≤ v ≤ int4_max →
  db_ok {| scores := <[t := {| score := v; updated_at := now |}]> (scores st);
           score_actions := score_actions st |}.
Proof.
  intros [Hscore Hrows Hid Hteam Hdelta] [x Hx] Hv.
  split; simpl.
  - intros t' row [[-> <-]|[_ Hrow]]%lookup_insert_Some; [done | by eapply Hscore].
  - by erewrite map_size_insert_Some.
  - done.
  - intros a Ha. rewrite lookup_insert_is_Some'. right. by apply Hteam.
  - done.
Qed.

Lemma db_ok_update_score (st st1 : db) (now : timestamptz) (t : string) (v : Z) :
  db_ok st →
  v ≤ int4_max →
  update_score st now t v = Ok st1 →
  db_ok st1.
Proof.
  intros Hok Hv [[_ ->]|(Hsome & Hpos & ->)]%update_score_inv; [done|].
  by apply db_ok_set_score.
Qed.

Lemma db_ok_insert_action (st : db) (now : timestamptz) (t : string)
    (d prev new : Z) (p ty : string) (rv : option uuid) :
  db_ok st →
  is_Some (scores st !! t) →
  - int4_max ≤ d ≤ int4_max →
  db_ok (insert_action st now t d prev new p ty rv).1.
Proof.
  intros [Hscore Hrows Hid Hteam Hdelta] Ht Hd.
  split; simpl; try done.
  - intros i a [[_ Ha]|[-> <-]]%lookup_snoc_Some; [by apply Hid | done].
  - intros a [Ha|Ha]%elem_of_app; [by apply Hteam|].
    apply list_elem_of_singleton in Ha as ->. done.
  - intros a [Ha|Ha]%elem_of_app; [by apply Hdelta|].
    apply list_elem_of_singleton in Ha as ->. done.
Qed.

Lemma mark_undone_lookup (st : db) (now : timestamptz) (k : uuid) (i : nat) :
  score_actions (mark_undone st now k) !! i =
    (λ a, if decide (id a = k) then set_undone now a else a) <$> score_actions st !! i.
Proof. unfold mark_undone. simpl. by rewrite list_lookup_fmap. Qed.

Lemma db_ok_mark_undone (st : db) (now : timestamptz) (k : uuid) :
  db_ok st → db_ok (mark_undone st now k).
Proof.
  intros [Hscore Hrows Hid Hteam Hdelta].
  split; simpl; try done.
  - intros i a. rewrite list_lookup_fmap.
    destruct (score_actions st !! i) as [b|] eqn:Hb; simpl; [|done].
    intros [= <-]. case_decide; simpl; by apply Hid.
  - intros a (b & -> & Hb)%list_elem_of_fmap_1. case_decide; simpl; by apply Hteam.
  - intros a (b & -> & Hb)%list_elem_of_fmap_1. case_decide; simpl; by apply Hdelta.
Qed.

Lemma db_ok_seed (t0 : timestamptz) : db_ok (seed_db t0).
Proof.
  split; simpl.
  - intros t row H.
    repeat (apply lookup_insert_Some in H as [[_ <-]|[_ H]]; [simpl; int4_lia|]).
    by rewrite lookup_empty in H.
  - vm_compute. discriminate.
  - intros i a H. by rewrite lookup_nil in H.
  - intros a H. by apply elem_of_nil in H.
  - intros a H. by apply elem_of_nil in H.
Qed.

Lemma db_ok_reset_all (st : db) (now : timestamptz) (p : string) :
  db_ok st → db_ok (commit st (reset_all st now p)).
Proof.
  intros Hok.
  destruct (check_rate_limit st now p) eqn:Hadm.
  { unfold reset_all. by rewrite Hadm. }
  rewrite reset_all_admitted by done. simpl.
  destruct Hok as [Hscore Hrows Hid Hteam Hdelta].
  assert (∀ t, is_Some (scores st !! t) →
            is_Some (reset_rows now (scores st) (positive_rows st) !! t)) as Hkeep.
  { intros t Ht. destruct (decide (t ∈ (positive_rows st).*1)).
    - by rewrite reset_rows_lookup_reset.
    - by rewrite reset_rows_lookup_other. }
  split; simpl.
  - intros t row. destruct (decide (t ∈ (positive_rows st).*1)).
    + rewrite reset_rows_lookup_reset by done. intros [= <-]. simpl. int4_lia.
    + rewrite reset_rows_lookup_other by done. apply Hscore.
  - rewrite reset_rows_size; [done|].
    intros [t row] [Hrow _]%positive_rows_elem. by eexists.
  - intros i a. rewrite lookup_app.
    destruct (score_actions st !! i) as [b|] eqn:Hb.
    + intros [= <-]. by apply Hid.
    + intros Ha%reset_all_actions_lookup.
      apply lookup_ge_None in Hb. lia.
  - intros a [Ha|Ha]%elem_of_app; [by apply Hkeep, Hteam|].
    apply reset_all_actions_elem in Ha as (j & [t row] & [Hrow _]%positive_rows_elem & ->).
    simpl. apply Hkeep. by eexists.
  - intros a [Ha|Ha]%elem_of_app; [by apply Hdelta|].
    apply reset_all_actions_elem in Ha as (j & [t row] & [Hrow _]%positive_rows_elem & ->).
    simpl. pose proof (Hscore t row Hrow). lia.
Qed.

Lemma select_score_Some (st : db) (t : string) (v : Z) :
  select_score st t = Some v ↔ ∃ row, scores st !! t = Some row ∧ score row = v.
Proof.
  unfold select_score. destruct (scores st !! t) as [row|]; simpl; split.
  - intros [= <-]. eauto.
  - by intros (? & [= <-] & <-).
  - done.
  - by intros (? & ? & _).
Qed.

Lemma insert_action_inv (st st2 : db) (now : timestamptz) (t : string)
    (d prev new : Z) (p ty : string) (rv : option uuid) (k : uuid) :
  insert_action st now t d prev new p ty rv = (st2, k) →
  st2 = (insert_action st now t d prev new p ty rv).1 ∧ k = length (score_actions st).
Proof. by intros [= <- <-]. Qed.

(** Turn the equations left by [step_body] into facts. *)
Ltac inv_exec :=
  unfold int4_add, int4_sub, int4_neg in *;
  repeat match goal with
  | H : int4 _ = Ok _ |- _ => apply int4_inv in H as [-> ?]
  | H : int4 _ = Raise check_violation |- _ => by apply int4_never_check in H
  | H : select_score _ _ = Some _ |- _ => apply select_score_Some in H as (? & ? & <-)
  end.

Ltac apply_insert_ok :=
  match goal with
  | |- db_ok {| scores := scores ?s;
                score_actions := score_actions ?s ++
                  [ {| id := _; team := ?t; delta := ?d; prev_score := ?pv;
                       new_score := ?nw; client_id := ?p; action_type := ?ty;
                       reverts_action_id := ?rv; undone := _; undone_at := _;
                       created_at := ?now |} ] |} =>
      apply (db_ok_insert_action s now t d pv nw p ty rv)
  end.

(** ** [undo_last_action]: the search *)

Lemma order_by_created_at_None (rows : list score_action) :
  order_by_created_at_desc_limit_1 rows = None ↔ rows = [].
Proof.
  destruct rows as [|a rows]; simpl; [done|].
  destruct (order_by_created_at_desc_limit_1 rows); [case_decide|]; done.
Qed.

Lemma order_by_created_at_Some (rows : list score_action) (a : score_action) :
  order_by_created_at_desc_limit_1 rows = Some a →
  a ∈ rows ∧ ∀ b, b ∈ rows → created_at b ≤ created_at a.
Proof.
  revert a. induction rows as [|x rows IH]; intros a; simpl; [done|].
  destruct (order_by_created_at_desc_limit_1 rows) as [b|] eqn:Hrest.
  - destruct (IH b eq_refl) as [Hin Hmax].
    case_decide; intros [= <-].
    + split; [left|]. intros c [->|Hc]%elem_of_cons; [lia|].
      specialize (Hmax c Hc). lia.
    + split; [by right|]. intros c [->|Hc]%elem_of_cons; [lia | by apply Hmax].
  - intros [= <-]. apply order_by_created_at_None in Hrest as ->.
    split; [left|]. intros c [->|Hc]%elem_of_cons; [lia|].
    by apply elem_of_nil in Hc.
Qed.

Lemma select_undoable_Some (st : db) (now : timestamptz) (p : string) (a : score_action) :
  select_undoable st now p = Some a →
  a ∈ score_actions st
  ∧ undoable now p a
  ∧ ∀ b, b ∈ score_actions st → undoable now p b → created_at b ≤ created_at a.
Proof.
  unfold select_undoable. intros [Hin Hmax]%order_by_created_at_Some.
  apply list_elem_of_filter in Hin as [Hu Hin].
  split_and!; [done..|].
  intros b Hb Hub. apply Hmax. by apply list_elem_of_filter.
Qed.


(** ** Every call keeps the schema constraints *)

Lemma db_ok_increment_team (st : db) (now : timestamptz) (t p : string) (n : Z) :
  db_ok st → db_ok (commit st (increment_team st now t p n)).
Proof.
  intros Hok. pose proof (clamp_range n).
  unfold increment_team. repeat step_body; try done. inv_exec.
  apply_insert_ok.
  - eapply db_ok_update_score; [done| |done]. lia.
  - match goal with H : update_score _ _ _ _ = Ok _ |- _ =>
      apply update_score_inv in H as [[? ->]|(? & ? & ->)] end; simpl.
    + by eexists.
    + rewrite lookup_insert_is_Some'. by left.
  - int4_lia.
Qed.

Lemma db_ok_decrement_team (st : db) (now : timestamptz) (t p : string) (n : Z) :
  db_ok st → db_ok (commit st (decrement_team st now t p n)).
Proof.
  intros Hok. pose proof (clamp_range n).
  unfold decrement_team. repeat step_body; try done. inv_exec.
  match goal with H : scores st !! t = Some ?row |- _ =>
    pose proof (ok_score st Hok t row H) end.
  apply_insert_ok.
  - eapply db_ok_update_score; [done| |done]. unfold GREATEST. lia.
  - match goal with H : update_score _ _ _ _ = Ok _ |- _ =>
      apply update_score_inv in H as [[? ->]|(? & ? & ->)] end; simpl.
    + by eexists.
    + rewrite lookup_insert_is_Some'. by left.
  - unfold GREATEST in *. int4_lia.
Qed.

Lemma db_ok_reset_team (st : db) (now : timestamptz) (t p : string) :
  db_ok st → db_ok (commit st (reset_team st now t p)).
Proof.
  intros Hok.
  unfold reset_team. repeat step_body; try done. inv_exec.
  match goal with H : scores st !! t = Some ?row |- _ =>
    pose proof (ok_score st Hok t row H) end.
  apply_insert_ok.
  - eapply db_ok_update_score; [done| |done]. int4_lia.
  - match goal with H : update_score _ _ _ _ = Ok _ |- _ =>
      apply update_score_inv in H as [[? ->]|(? & ? & ->)] end; simpl.
    + by eexists.
    + rewrite lookup_insert_is_Some'. by left.
  - int4_lia.
Qed.

Lemma db_ok_undo_last_action (st : db) (now : timestamptz) (p : string) :
  db_ok st → db_ok (commit st (undo_last_action st now p)).
Proof.
  intros Hok. unfold undo_last_action.
  destruct (check_rate_limit st now p); [done|].
  destruct (select_undoable st now p) as [a|] eqn:Hsel; [|done].
  apply select_undoable_Some in Hsel as (Hin & _ & _).
  pose proof (ok_delta st Hok a Hin) as Hdelta.
  destruct (select_score st (team a)) as [cur|] eqn:Hcur; [|done].
  apply select_score_Some in Hcur as (row & Hrow & <-).
  pose proof (ok_score st Hok _ row Hrow) as Hscore.
  destruct (int4_sub (score row) (delta a)) as [d|] eqn:Hd; [|done].
  apply int4_inv in Hd as [-> Hd]. simpl.
  destruct (update_score st now (team a) (GREATEST (score row - delta a) 0))
    as [st1|] eqn:Hupd; [|done]. simpl.
  rewrite int4_neg_in_range by int4_lia. simpl.
  apply (db_ok_insert_action (mark_undone st1 now (id a)) now (team a) (- delta a)
           (score row) (GREATEST (score row - delta a) 0) p "undo" (Some (id a))).
  - apply db_ok_mark_undone.
    eapply db_ok_update_score; [done| |done]. unfold GREATEST. lia.
  - apply update_score_inv in Hupd as [[? ->]|(? & ? & ->)]; simpl.
    + by eexists.
    + rewrite lookup_insert_is_Some'. by left.
  - lia.
Qed.

Lemma db_ok_rpc (st : db) (now : timestamptz) (c : call) :
  db_ok st → db_ok (commit st (rpc st now c)).
Proof.
  destruct c; simpl;
    auto using db_ok_increment_team, db_ok_decrement_team, db_ok_reset_team,
      db_ok_reset_all, db_ok_undo_last_action.
Qed.


Lemma reachable_db_ok (st : db) : reachable st → db_ok st.
Proof. induction 1; [apply db_ok_seed | by apply db_ok_rpc]. Qed.

Lemma reachable_run (calls : list (timestamptz * call)) (st : db) :
  reachable st → reachable (run st calls).
Proof.
  revert st. induction calls as [|[now c] calls IH]; intros st Hr; simpl; [done|].
  by apply IH, reachable_step.
Qed.

(** ** The floor *)

(** The [CHECK (score >= 0)] of the table never fires: no function tries
    to write a negative score. *)
Lemma rpc_never_check_violation (st : db) (now : timestamptz) (c : call) :
  db_ok st → rpc st now c ≠ Raise check_violation.
Proof.
  intros Hok.
  assert (∀ t v, select_score st t = Some v → 0 ≤ v ≤ int4_max) as Hrange.
  { intros t v (row & Hrow & <-)%select_score_Some. by eapply ok_score. }
  destruct c as [t p n|t p n|t p|p|p]; simpl.
  - pose proof (clamp_range n).
    unfold increment_team. repeat step_body; try discriminate; intros [= ->].
    + match goal with H : select_score _ _ = Some _ |- _ => apply Hrange in H end.
      inv_exec.
      match goal with H : update_score _ _ _ _ = Raise _ |- _ =>
        apply update_score_never_check in H; [done|lia] end.
    + inv_exec.
  - pose proof (clamp_range n).
    unfold decrement_team. repeat step_body; try discriminate; intros [= ->];
      try (inv_exec; fail).
    all: match goal with H : update_score _ _ _ _ = Raise _ |- _ =>
      apply update_score_never_check in H; [done|unfold GREATEST; lia] end.
  - unfold reset_team. repeat step_body; try discriminate; intros [= ->];
      try (inv_exec; fail).
    all: match goal with H : update_score _ _ _ _ = Raise _ |- _ =>
      apply update_score_never_check in H; [done|lia] end.
  - destruct (check_rate_limit st now p) eqn:Hadm.
    + unfold reset_all. by rewrite Hadm.
    + by rewrite reset_all_admitted.
  - unfold undo_last_action. repeat step_body; try discriminate; intros [= ->];
      try (inv_exec; fail).
    all: match goal with H : update_score _ _ _ _ = Raise _ |- _ =>
      apply update_score_never_check in H; [done|unfold GREATEST; lia] end.
Qed.

(** C3: in every state reachable from the seed every score is at least 0,
    and no call so much as attempts a negative write. *)
Theorem score_never_negative (st : db) :
  reachable st →
  (∀ t row, scores st !! t = Some row → 0 ≤ score row)
  ∧ (∀ now c, rpc st now c ≠ Raise check_violation)
  ∧ (∀ now c t row,
       scores (commit st (rpc st now c)) !! t = Some row → 0 ≤ score row).
Proof.
  intros Hr. pose proof (reachable_db_ok st Hr) as Hok. split_and!.
  - intros t row Hrow. by apply (ok_score st Hok t row).
  - intros now c. by apply rpc_never_check_violation.
  - intros now c t row Hrow.
    by apply (ok_score _ (db_ok_rpc st now c Hok) t row).
Qed.

(** ** [reset_all] and the rate limit *)



(** ** [undo_last_action]: the effect *)


(** What a call to [undo_last_action] that returns has done. *)
Lemma undo_last_action_inv (st st' : db) (now : timestamptz) (p : string) (r : json) :
  undo_last_action st now p = Ok (st', r) →
  (st' = st
   ∧ ((check_rate_limit st now p = true ∧ r = rate_limited)
      ∨ (check_rate_limit st now p = false
         ∧ select_undoable st now p = None
         ∧ r = no_undoable_action)))
  ∨ ∃ a row,
      check_rate_limit st now p = false
      ∧ select_undoable st now p = Some a
      ∧ scores st !! team a = Some row
      ∧ int4_min ≤ score row - delta a ≤ int4_max
      ∧ scores st' = <[team a := {| score := GREATEST (score row - delta a) 0;
                                   updated_at := now |}]> (scores st)
      ∧ score_actions st' =
          ((λ b, if decide (id b = id a) then set_undone now b else b)
             <$> score_actions st)
          ++ [undo_action (length (score_actions st)) now p a (score row)]
      ∧ r = json_build_object
              [("success", JBool true);
               ("team", JText (team a));
               ("prev_score", JInt (score row));
               ("new_score", JInt (GREATEST (score row - delta a) 0));
               ("reverted_action_id", JUuid (id a));
               ("undo_action_id", JUuid (length (score_actions st)))].
Proof.
  unfold undo_last_action.
  destruct (check_rate_limit st now p) eqn:Hadm.
  { intros [= <- <-]. left. auto. }
  destruct (select_undoable st now p) as [a|] eqn:Hsel; cycle 1.
  { intros [= <- <-]. left. auto. }
  destruct (select_score st (team a)) as [cur|] eqn:Hcur; [|done].
  apply select_score_Some in Hcur as (row & Hrow & <-).
  intros (d & [-> Hd]%int4_inv & H)%bind_inv_Ok.
  apply bind_inv_Ok in H as (st1 & Hupd & H).
  apply bind_inv_Ok in H as (nd & [-> Hnd]%int4_inv & H).
  apply update_score_inv in Hupd as [[Hnone _]|(_ & _ & ->)]; [congruence|].
  simpl in H. injection H as <- <-.
  right. exists a, row. split_and!; try done; try lia.
  - unfold mark_undone, undo_action, set_undone. simpl. by rewrite length_fmap.
  - unfold mark_undone. simpl. by rewrite length_fmap.
Qed.

(** An admitted call with an action to undo returns, as long as the new
    score fits the [INTEGER] column. *)
Lemma undo_last_action_returns (st : db) (now : timestamptz) (p : string)
    (a : score_action) (row : score_row) :
  db_ok st →
  check_rate_limit st now p = false →
  select_undoable st now p = Some a →
  scores st !! team a = Some row →
  score row - delta a ≤ int4_max →
  ∃ st' r, undo_last_action st now p = Ok (st', r)
           ∧ json_get "success" r = Some (JBool true).
Proof.
  intros Hok Hadm Hsel Hrow Hmax.
  pose proof (ok_score st Hok _ row Hrow) as Hscore.
  pose proof Hsel as (Hin & _ & _)%select_undoable_Some.
  pose proof (ok_delta st Hok a Hin) as Hdelta.
  unfold undo_last_action. rewrite Hadm, Hsel.
  unfold select_score. rewrite Hrow. simpl.
  rewrite int4_sub_in_range by int4_lia. simpl.
  unfold update_score. rewrite Hrow, decide_True by (unfold GREATEST; lia). simpl.
  rewrite int4_neg_in_range by int4_lia. simpl.
  eauto.
Qed.

(** ** The log is append-mostly *)







Lemma log_lookup_id (st : db) (a : score_action) :
  db_ok st → a ∈ score_actions st → score_actions st !! id a = Some a.
Proof.
  intros Hok [i Hi]%list_elem_of_lookup.
  by rewrite (ok_id st Hok i a Hi).
Qed.



(** ** What the rows of the log record *)

(** Sums of a column over the log. *)

Lemma sum_col_nil (col : score_action → Z) (t : string) : sum_col col [] t = 0.
Proof. reflexivity. Qed.

Lemma sum_col_cons (col : score_action → Z) (a : score_action)
    (l : list score_action) (t : string) :
  sum_col col (a :: l) t = (if decide (team a = t) then col a else 0) + sum_col col l t.
Proof.
  unfold sum_col. rewrite filter_cons. by case_decide.
Qed.

Lemma sum_col_app (col : score_action → Z) (l1 l2 : list score_action) (t : string) :
  sum_col col (l1 ++ l2) t = sum_col col l1 t + sum_col col l2 t.
Proof.
  induction l1 as [|a l1 IH]; simpl.
  - rewrite sum_col_nil. lia.
  - rewrite !sum_col_cons, IH. lia.
Qed.

Lemma sum_col_fmap (col : score_action → Z) (g : score_action → score_action)
    (l : list score_action) (t : string) :
  (∀ b, team (g b) = team b ∧ col (g b) = col b) →
  sum_col col (g <$> l) t = sum_col col l t.
Proof.
  intros Hg. induction l as [|a l IH]; [done|].
  rewrite fmap_cons, !sum_col_cons, IH.
  destruct (Hg a) as [-> ->]. done.
Qed.

Lemma sum_col_ext (col col' : score_action → Z) (l : list score_action) (t : string) :
  (∀ a, a ∈ l → col a = col' a) →
  sum_col col l t = sum_col col' l t.
Proof.
  induction l as [|a l IH]; intros Heq; [done|].
  rewrite !sum_col_cons, IH.
  - rewrite (Heq a); [done | left].
  - intros b Hb. apply Heq. by right.
Qed.

(** What the single-team functions have done when they return. *)
Lemma increment_team_inv (st st' : db) (now : timestamptz) (t p : string)
    (n : Z) (r : json) :
  increment_team st now t p n = Ok (st', r) →
  st' = st
  ∨ ∃ row a,
      scores st !! t = Some row
      ∧ scores st' = <[t := {| score := new_score a; updated_at := now |}]> (scores st)
      ∧ score_actions st' = score_actions st ++ [a]
      ∧ team a = t ∧ prev_score a = score row
      ∧ delta a = applied a ∧ action_type a = "increment".
Proof.
  unfold increment_team. repeat step_body; intros [= <- <-]; auto.
  inv_exec.
  match goal with H : update_score _ _ _ _ = Ok _ |- _ =>
    apply update_score_inv in H as [[? ->]|(? & ? & ->)] end; [congruence|].
  right. eexists _, _. split; [done|]. simpl.
  split_and!; try reflexivity; try done; unfold applied; simpl; lia.
Qed.

Lemma decrement_team_inv (st st' : db) (now : timestamptz) (t p : string)
    (n : Z) (r : json) :
  decrement_team st now t p n = Ok (st', r) →
  st' = st
  ∨ ∃ row a,
      scores st !! t = Some row
      ∧ scores st' = <[t := {| score := new_score a; updated_at := now |}]> (scores st)
      ∧ score_actions st' = score_actions st ++ [a]
      ∧ team a = t ∧ prev_score a = score row
      ∧ delta a = applied a ∧ action_type a = "decrement".
Proof.
  unfold decrement_team. repeat step_body; intros [= <- <-]; auto.
  inv_exec.
  match goal with H : update_score _ _ _ _ = Ok _ |- _ =>
    apply update_score_inv in H as [[? ->]|(? & ? & ->)] end; [congruence|].
  right. eexists _, _. split; [done|]. simpl.
  split_and!; try reflexivity; try done; unfold applied; simpl; lia.
Qed.

Lemma reset_team_inv (st st' : db) (now : timestamptz) (t p : string) (r : json) :
  reset_team st now t p = Ok (st', r) →
  st' = st
  ∨ ∃ row a,
      scores st !! t = Some row
      ∧ scores st' = <[t := {| score := new_score a; updated_at := now |}]> (scores st)
      ∧ score_actions st' = score_actions st ++ [a]
      ∧ team a = t ∧ prev_score a = score row
      ∧ delta a = applied a ∧ action_type a = "reset".
Proof.
  unfold reset_team. repeat step_body; intros [= <- <-]; auto.
  inv_exec.
  match goal with H : update_score _ _ _ _ = Ok _ |- _ =>
    apply update_score_inv in H as [[? ->]|(? & ? & ->)] end; [congruence|].
  right. eexists _, _. split; [done|]. simpl.
  split_and!; try reflexivity; try done; unfold applied; simpl; lia.
Qed.

Lemma score_of_insert (st st' : db) (now : timestamptz) (t t' : string)
    (row : score_row) (v : Z) :
  scores st !! t = Some row →
  scores st' = <[t := {| score := v; updated_at := now |}]> (scores st) →
  score_of st' t' = score_of st t' + (if decide (t = t') then v - score row else 0).
Proof.
  intros Hrow Hst'. unfold score_of, select_score. rewrite Hst'.
  case_decide as Ht.
  - subst t'. rewrite lookup_insert_eq, Hrow. simpl. lia.
  - rewrite lookup_insert_ne by done. lia.
Qed.

(** The effect of one call on the log and on the scores: rows already
    logged keep their columns, and the scores move by what the new rows
    record in [prev_score] and [new_score]. *)
Lemma rpc_effect (st : db) (now : timestamptz) (c : call) :
  db_ok st →
  ∃ (g : score_action → score_action) (news : list score_action),
    score_actions (commit st (rpc st now c)) = (g <$> score_actions st) ++ news
    ∧ (∀ b, team (g b) = team b ∧ delta (g b) = delta b
            ∧ applied (g b) = applied b ∧ action_type (g b) = action_type b)
    ∧ (∀ a, a ∈ news → action_type a ≠ "undo" → delta a = applied a)
    ∧ (∀ t, score_of (commit st (rpc st now c)) t
            = score_of st t + sum_col applied news t).
Proof.
  intros Hok.
  assert (∃ (g : score_action → score_action) (news : list score_action),
    score_actions st = (g <$> score_actions st) ++ news
    ∧ (∀ b, team (g b) = team b ∧ delta (g b) = delta b
            ∧ applied (g b) = applied b ∧ action_type (g b) = action_type b)
    ∧ (∀ a, a ∈ news → action_type a ≠ "undo" → delta a = applied a)
    ∧ (∀ t, score_of st t = score_of st t + sum_col applied news t)) as Hsame.
  { exists (λ b, b), []. rewrite list_fmap_id, app_nil_r.
    split_and!; try done.
    - intros a Ha. by apply elem_of_nil in Ha.
    - intros t. rewrite sum_col_nil. lia. }
  assert (∀ st' row a t,
    scores st !! t = Some row →
    scores st' = <[t := {| score := new_score a; updated_at := now |}]> (scores st) →
    score_actions st' = score_actions st ++ [a] →
    team a = t → prev_score a = score row →
    delta a = applied a →
    ∃ (g : score_action → score_action) (news : list score_action),
      score_actions st' = (g <$> score_actions st) ++ news
      ∧ (∀ b, team (g b) = team b ∧ delta (g b) = delta b
              ∧ applied (g b) = applied b ∧ action_type (g b) = action_type b)
      ∧ (∀ a, a ∈ news → action_type a ≠ "undo" → delta a = applied a)
      ∧ (∀ t, score_of st' t = score_of st t + sum_col applied news t)) as Hone.
  { intros st' row a t Hrow Hscores Hlog Hteam Hprev Hdelta.
    exists (λ b, b), [a]. rewrite list_fmap_id.
    split_and!; try done.
    - intros a' Ha'. apply list_elem_of_singleton in Ha' as ->. done.
    - intros t'. rewrite (score_of_insert st st' now t t' row (new_score a)) by done.
      rewrite sum_col_cons, sum_col_nil, Hteam. unfold applied.
      case_decide; lia. }
  destruct c as [t p n|t p n|t p|p|p]; simpl.
  - destruct (increment_team st now t p n) as [[st' r]|e] eqn:Hrun; simpl; [|done].
    apply increment_team_inv in Hrun
      as [->|(row & a & ? & ? & ? & ? & ? & ? & ?)]; [done|].
    by eapply Hone.
  - destruct (decrement_team st now t p n) as [[st' r]|e] eqn:Hrun; simpl; [|done].
    apply decrement_team_inv in Hrun
      as [->|(row & a & ? & ? & ? & ? & ? & ? & ?)]; [done|].
    by eapply Hone.
  - destruct (reset_team st now t p) as [[st' r]|e] eqn:Hrun; simpl; [|done].
    apply reset_team_inv in Hrun
      as [->|(row & a & ? & ? & ? & ? & ? & ? & ?)]; [done|].
    by eapply Hone.
  - destruct (check_rate_limit st now p) eqn:Hadm.
    { unfold reset_all. by rewrite Hadm. }
    rewrite reset_all_admitted by done. simpl.
    exists (λ b, b), (reset_all_actions (length (score_actions st)) now p
                        (positive_rows st)).
    rewrite list_fmap_id. split_and!; try done.
    + intros a (j & r & _ & ->)%reset_all_actions_elem _.
      unfold applied. simpl. lia.
    + intros t. unfold score_of, select_score, sum_col. simpl.
      destruct (scores st !! t) as [row|] eqn:Hrow.
      * destruct (decide (score row > 0)) as [Hpos|Hzero].
        -- assert ((t, row) ∈ positive_rows st) as Hin by by apply positive_rows_elem.
           rewrite reset_rows_lookup_reset
             by by apply (list_elem_of_fmap_2' fst _ (t, row)).
           destruct (reset_all_actions_team_present (length (score_actions st)) now p
                       (positive_rows st) t row (positive_rows_NoDup st) Hin) as [j ->].
           unfold applied. simpl. lia.
        -- assert (t ∉ (positive_rows st).*1) as Hnin.
           { intros [[t' row'] [-> [Hrow' ?]%positive_rows_elem]]%list_elem_of_fmap_1.
             simpl in *. congruence. }
           rewrite reset_rows_lookup_other, Hrow by done.
           rewrite reset_all_actions_team_absent by done. simpl. lia.
      * assert (t ∉ (positive_rows st).*1) as Hnin.
        { intros [[t' row'] [-> [Hrow' ?]%positive_rows_elem]]%list_elem_of_fmap_1.
          simpl in *. congruence. }
        rewrite reset_rows_lookup_other, Hrow by done.
        rewrite reset_all_actions_team_absent by done. simpl. lia.
  - destruct (undo_last_action st now p) as [[st' r]|e] eqn:Hrun; simpl; [|done].
    apply undo_last_action_inv in Hrun
      as [[-> _]|(a & row & _ & _ & Hrow & _ & Hscores & Hlog & _)]; [done|].
    eexists _, _. split; [exact Hlog|]. split_and!.
    + intros b. by case_decide.
    + intros u Hu. apply list_elem_of_singleton in Hu as ->. done.
    + intros t.
      rewrite (score_of_insert st st' now (team a) t row
                 (GREATEST (score row - delta a) 0)) by done.
      rewrite sum_col_cons, sum_col_nil. unfold applied. simpl.
      case_decide; lia.
Qed.

(** In every reachable state the score of a team is the sum of the changes
    its rows record in [prev_score] and [new_score]. *)
Lemma score_is_sum_of_applied (st : db) (t : string) :
  reachable st → score_of st t = sum_col applied (score_actions st) t.
Proof.
  intros Hr. revert t. induction Hr as [t0|st now c Hr IH]; intros t.
  - unfold score_of, select_score. simpl. rewrite sum_col_nil.
    rewrite !lookup_insert, lookup_empty. by repeat case_decide.
  - destruct (rpc_effect st now c (reachable_db_ok st Hr))
      as (g & news & Hlog & Hg & _ & Hscore).
    rewrite Hscore, Hlog, sum_col_app, IH.
    rewrite (sum_col_fmap applied g); [done|].
    intros b. destruct (Hg b) as (? & _ & ? & _). done.
Qed.

(** Every row that is not an undo carries the applied change as its
    [delta]. *)
Lemma delta_is_applied_unless_undo (st : db) (a : score_action) :
  reachable st →
  a ∈ score_actions st →
  action_type a ≠ "undo" →
  delta a = applied a.
Proof.
  intros Hr. revert a. induction Hr as [t0|st now c Hr IH]; intros a.
  - intros Ha. by apply elem_of_nil in Ha.
  - destruct (rpc_effect st now c (reachable_db_ok st Hr))
      as (g & news & Hlog & Hg & Hnews & _).
    rewrite Hlog. intros [(b & -> & Hb)%list_elem_of_fmap_1|Ha]%elem_of_app Hty.
    + destruct (Hg b) as (_ & -> & -> & Hgty). apply IH; [done|]. by rewrite <- Hgty.
    + by apply Hnews.
Qed.

(** The replay invariant holds in every reachable state whose undo rows
    carry the applied change. *)
Lemma replay_holds_unless_floored (st : db) (t : string) :
  reachable st →
  (∀ a, a ∈ score_actions st → action_type a = "undo" → delta a = applied a) →
  score_of st t = sum_deltas st t.
Proof.
  intros Hr Hundo. rewrite score_is_sum_of_applied by done.
  unfold sum_deltas. apply sum_col_ext. intros a Ha. symmetry.
  destruct (decide (action_type a = "undo")) as [Hty|Hty].
  - by apply Hundo.
  - by apply (delta_is_applied_unless_undo st).
Qed.

(** ** The delta column of undo rows *)

(** The delta written by an undo is the applied one exactly when the floor
    is not hit. *)
Lemma undo_action_delta_applied (k : uuid) (now : timestamptz) (p : string)
    (a : score_action) (cur : Z) :
  delta (undo_action k now p a cur)
  = new_score (undo_action k now p a cur) - prev_score (undo_action k now p a cur)
  ↔ 0 ≤ cur - delta a.
Proof. unfold undo_action, GREATEST. simpl. lia. Qed.

(** What any successful undo writes: the negated delta of the reverted row,
    whatever the floor did to the score. *)
Lemma undo_row_delta (st st' : db) (now : timestamptz) (p : string) (r : json) :
  undo_last_action st now p = Ok (st', r) →
  json_get "success" r = Some (JBool true) →
  ∃ a row u,
    select_undoable st now p = Some a
    ∧ scores st !! team a = Some row
    ∧ last (score_actions st') = Some u
    ∧ delta u = - delta a
    ∧ applied u = GREATEST (score row - delta a) 0 - score row
    ∧ score_of st' (team a) - score_of st (team a) = applied u
    ∧ (delta u = applied u ↔ 0 ≤ score row - delta a).
Proof.
  intros Hundo Hsuccess.
  apply undo_last_action_inv in Hundo
    as [[_ [[_ ->] | (_ & _ & ->)]]
       |(a & row & _ & Hsel & Hrow & _ & Hscores & Hlog & _)]; [done..|].
  exists a, row, (undo_action (length (score_actions st)) now p a (score row)).
  split_and!; try done.
  - rewrite Hlog. apply last_snoc.
  - rewrite (score_of_insert st st' now (team a) (team a) row
               (GREATEST (score row - delta a) 0)) by done.
    rewrite decide_True by done. unfold applied. simpl. lia.
  - apply undo_action_delta_applied.
Qed.

(** C1 (fails on the code): client c1 raised blue to 5, client c2 reset it,
    client c1 undoes its increment.  The score stays at 0, so the applied
    delta is 0, yet the undo row carries -5. *)
Theorem undo_logs_recorded_delta_at_floor :
  ∃ st' r u,
    undo_last_action (run (seed_db 0) blue_up_then_reset) (seconds 3) "c1" = Ok (st', r)
    ∧ json_get "success" r = Some (JBool true)
    ∧ select_score (run (seed_db 0) blue_up_then_reset) "blue" = Some 0
    ∧ select_score st' "blue" = Some 0
    ∧ last (score_actions st') = Some u
    ∧ action_type u = "undo"
    ∧ prev_score u = 0
    ∧ new_score u = 0
    ∧ delta u = -5
    ∧ delta u ≠ new_score u - prev_score u.
Proof.
  eexists _, _, _. split; [reflexivity|].
  split_and!; try reflexivity. simpl. discriminate.
Qed.

(** ** The replay invariant *)

(** C2 (fails on the code): after the same three calls blue is at 0 while
    its seed, 0, plus the sum of its logged deltas, 5 - 5 - 5, is -5. *)
Theorem replay_invariant_broken_by_floored_undo :
  reachable (run (seed_db 0) (blue_up_then_reset ++ [(seconds 3, Undo "c1")]))
  ∧ select_score (seed_db 0) "blue" = Some 0
  ∧ select_score (run (seed_db 0) (blue_up_then_reset ++ [(seconds 3, Undo "c1")]))
      "blue" = Some 0
  ∧ sum_deltas (run (seed_db 0) (blue_up_then_reset ++ [(seconds 3, Undo "c1")]))
      "blue" = -5.
Proof.
  split; [apply reachable_run, reachable_seed|].
  split_and!; reflexivity.
Qed.

(** ** Two runs end to end *)

(** Blue at 0: increment by 5, decrement by 10 (logged as -5), a decrement
    at the floor (no row), then undo (reverts the decrement, logged as +5). *)
Example scenario_blue :
  let st := run (seed_db 0) (up_then_down ++
              [(seconds 3, Decrement "blue" "c1" 1); (seconds 4, Undo "c1")]) in
  select_score st "blue" = Some 5
  ∧ delta <$> score_actions st = [5; -5; 5]
  ∧ action_type <$> score_actions st = ["increment"; "decrement"; "undo"]
  ∧ undone <$> score_actions st = [false; true; false]
  ∧ reverts_action_id <$> score_actions st = [None; None; Some 1%nat].
Proof. split_and!; reflexivity. Qed.

(** Blue at 5, green at 0, yellow at 3, red at 0: [reset_all] logs two rows
    and leaves green and red alone. *)
Example scenario_reset_all :
  let st := run (seed_db 0) (blue5_yellow3 ++ [(seconds 3, ResetAll "c1")]) in
  score_of st "blue" = 0 ∧ score_of st "yellow" = 0
  ∧ scores st !! "green" = Some {| score := 0; updated_at := 0 |}
  ∧ scores st !! "red" = Some {| score := 0; updated_at := 0 |}
  ∧ length (filter (λ a, action_type a = "reset_all") (score_actions st)) = 2%nat
  ∧ sum_deltas st "blue" = 0 ∧ sum_deltas st "yellow" = 0.
Proof. split_and!; reflexivity. Qed.

(** ** Instances *)

(** After an increment and a floored decrement no score is negative. *)
Lemma score_never_negative_witness :
  reachable (run (seed_db 0) up_then_down)
  ∧ ∀ t row, scores (run (seed_db 0) up_then_down) !! t = Some row → 0 ≤ score row.
Proof.
  pose (reachable_run up_then_down _ (reachable_seed 0)) as Hr.
  split; [exact Hr|].
  exact (proj1 (score_never_negative _ Hr)).
Defined.


(** An increment by 250 adds 100. *)
Lemma increment_team_adds_clamped_witness :
  ∃ st' r, increment_team (seed_db 0) (seconds 1) "blue" "c1" 250 = Ok (st', r)
           ∧ select_score st' "blue" = Some 100.
Proof.
  destruct (increment_team_adds_clamped (seed_db 0) (seconds 1) "blue" "c1" 250
              {| score := 0; updated_at := 0 |})
    as (_ & Hok & _).
  - reflexivity.
  - simpl. lia.
  - reflexivity.
  - destruct Hok as (st' & a & r & Hrun & Hscore & _).
    + vm_compute. discriminate.
    + exists st', r. split; [exact Hrun | exact Hscore].
Defined.

(** A decrement by 10 of a score of 5 stops at 0. *)
Lemma decrement_team_floors_at_zero_witness :
  ∃ st' r,
    decrement_team (run (seed_db 0) [(seconds 1, Increment "blue" "c1" 5)])
      (seconds 2) "blue" "c1" 10 = Ok (st', r)
    ∧ select_score st' "blue" = Some 0.
Proof.
  destruct (decrement_team_floors_at_zero
              (run (seed_db 0) [(seconds 1, Increment "blue" "c1" 5)])
              (seconds 2) "blue" "c1" 10
              {| score := 5; updated_at := seconds 1 |})
    as (_ & st' & a & r & Hrun & Hscore & _).
  - reflexivity.
  - simpl. unfold int4_max. lia.
  - reflexivity.
  - exists st', r. split; [exact Hrun | exact Hscore].
Defined.

(** With blue at 5 and yellow at 3, [reset_all] resets two teams. *)
Lemma reset_all_resets_positive_teams_witness :
  ∃ st' news,
    reset_all (run (seed_db 0) blue5_yellow3) (seconds 3) "c1"
    = Ok (st', json_build_object
                 [("success", JBool true); ("teams_reset", JInt 2)])
    ∧ score_actions st' = score_actions (run (seed_db 0) blue5_yellow3) ++ news
    ∧ length news = 2%nat.
Proof.
  destruct (reset_all_resets_positive_teams (run (seed_db 0) blue5_yellow3)
              (seconds 3) "c1")
    as (st' & news & Hrun & Hlog & Hlen & _).
  - apply reachable_db_ok, reachable_run, reachable_seed.
  - reflexivity.
  - exists st', news. split_and!; [exact Hrun | exact Hlog | exact Hlen].
Defined.


(** On the seeded database a decrement fails and a reset succeeds, both
    without writing. *)
Lemma noop_at_zero_witness :
  (∃ r, decrement_team (seed_db 0) (seconds 1) "blue" "c1" 1 = Ok (seed_db 0, r)
        ∧ json_get "success" r = Some (JBool false))
  ∧ (∃ r, reset_team (seed_db 0) (seconds 1) "blue" "c1" = Ok (seed_db 0, r)
        ∧ json_get "success" r = Some (JBool true)).
Proof.
  destruct (noop_at_zero (seed_db 0) (seconds 1) "blue" "c1" 1
              {| score := 0; updated_at := 0 |})
    as [(r1 & H1 & S1 & _) (r2 & H2 & S2 & _)].
  - reflexivity.
  - reflexivity.
  - reflexivity.
  - split; [exists r1 | exists r2]; split; assumption.
Defined.


(** * Further properties of the functions *)

(** ** The shape of a call *)

Lemma increment_team_wrote (st : db) (now : timestamptz) (t p : string) (n : Z) :
  db_ok st →
  wrote st now (Increment t p n) (commit st (increment_team st now t p n)).
Proof.
  intros Hok. pose proof (clamp_range n) as Hclamp.
  unfold increment_team. repeat step_body; try apply wrote_nothing.
  inv_exec.
  match goal with H : update_score _ _ _ _ = Ok _ |- _ =>
    apply update_score_inv in H as [[? ->]|(? & ? & ->)] end; [congruence|].
  match goal with H : scores st !! t = Some ?row |- _ =>
    apply (wrote_one st now (Increment t p n) t row
             (GREATEST 1 (LEAST n 100)) (score row + GREATEST 1 (LEAST n 100)));
    [done | done | constructor; lia] end.
Qed.

Lemma decrement_team_wrote (st : db) (now : timestamptz) (t p : string) (n : Z) :
  db_ok st →
  wrote st now (Decrement t p n) (commit st (decrement_team st now t p n)).
Proof.
  intros Hok. pose proof (clamp_range n) as Hclamp.
  unfold decrement_team. repeat step_body; try apply wrote_nothing.
  inv_exec.
  match goal with H : update_score _ _ _ _ = Ok _ |- _ =>
    apply update_score_inv in H as [[? ->]|(? & ? & ->)] end; [congruence|].
  match goal with H : scores st !! t = Some ?row |- _ =>
    pose proof (ok_score st Hok t row H);
    apply (wrote_one st now (Decrement t p n) t row
             (- (score row - GREATEST (score row - GREATEST 1 (LEAST n 100)) 0))
             (GREATEST (score row - GREATEST 1 (LEAST n 100)) 0));
    [done | done | constructor; unfold GREATEST in *; lia] end.
Qed.

Lemma reset_team_wrote (st : db) (now : timestamptz) (t p : string) :
  db_ok st →
  wrote st now (Reset t p) (commit st (reset_team st now t p)).
Proof.
  intros Hok.
  unfold reset_team. repeat step_body; try apply wrote_nothing.
  inv_exec.
  match goal with H : update_score _ _ _ _ = Ok _ |- _ =>
    apply update_score_inv in H as [[? ->]|(? & ? & ->)] end; [congruence|].
  match goal with H : scores st !! t = Some ?row |- _ =>
    pose proof (ok_score st Hok t row H);
    apply (wrote_one st now (Reset t p) t row (- score row) 0);
    [done | done | constructor; lia] end.
Qed.

(** Every call leaves the database as it found it or writes in one of the
    three ways of [wrote]. *)
Lemma rpc_wrote (st : db) (now : timestamptz) (c : call) :
  db_ok st → wrote st now c (commit st (rpc st now c)).
Proof.
  intros Hok. destruct c as [t p n|t p n|t p|p|p]; simpl.
  - by apply increment_team_wrote.
  - by apply decrement_team_wrote.
  - by apply reset_team_wrote.
  - destruct (check_rate_limit st now p) eqn:Hadm.
    + unfold reset_all. rewrite Hadm. apply wrote_nothing.
    + rewrite reset_all_admitted by done. simpl.
      by apply (wrote_all st now (ResetAll p)).
  - destruct (undo_last_action st now p) as [[st' r]|e] eqn:Hrun; simpl;
      [|apply wrote_nothing].
    apply undo_last_action_inv in Hrun
      as [[-> _]|(a & row & _ & Hsel & Hrow & Hrange & Hscores & Hlog & _)];
      [apply wrote_nothing|].
    destruct st' as [sc' log']. simpl in Hscores, Hlog. subst sc' log'.
    apply (wrote_undo st now (Undo p) a row); try done. lia.
Qed.

(** Induction over the reachable states, one write at a time. *)
Lemma reachable_wrote_ind (P : db → Prop) :
  (∀ t0, P (seed_db t0)) →
  (∀ st now c st',
     reachable st → db_ok st → P st → wrote st now c st' → P st') →
  ∀ st, reachable st → P st.
Proof.
  intros Hseed Hstep st Hr. induction Hr as [t0|st now c Hr IH]; [apply Hseed|].
  eapply Hstep; [done | by apply reachable_db_ok | done |].
  by apply rpc_wrote, reachable_db_ok.
Qed.

Lemma single_kind_type (ty : string) (d prev nw : Z) :
  single_kind ty d prev nw →
  ty = "increment" ∨ ty = "decrement" ∨ ty = "reset".
Proof. destruct 1; auto. Qed.

(** ** The columns of a row *)

Lemma row_typed_set_undone (now : timestamptz) (a : score_action) :
  row_typed a → row_typed (set_undone now a).
Proof. done. Qed.

Lemma row_typed_single (k : uuid) (now : timestamptz) (t p ty : string)
    (d prev nw : Z) :
  0 ≤ prev ≤ int4_max →
  single_kind ty d prev nw →
  row_typed (new_action k now t d prev nw p ty None).
Proof.
  intros Hprev Hkind. unfold row_typed. simpl.
  destruct Hkind; (split; [lia|]); (split; [lia|]).
  - left. split_and!; (done || lia).
  - right. left. split_and!; (done || lia).
  - right. right. left. split_and!; (done || lia || auto).
Qed.

Lemma rows_typed (st : db) :
  reachable st → ∀ a, a ∈ score_actions st → row_typed a.
Proof.
  revert st.
  apply (reachable_wrote_ind (λ st, ∀ a, a ∈ score_actions st → row_typed a)).
  - intros t0 a Ha. by apply elem_of_nil in Ha.
  - intros st now c st' _ Hok IH Hw. destruct Hw as [|t row d nw Ht Hrow Hkind| |a0 row Hc Hsel Hrow Hmax];
      simpl.
    + done.
    + intros a [Ha|Ha]%elem_of_app; [by apply IH|].
      apply list_elem_of_singleton in Ha as ->.
      apply row_typed_single; [|done]. by apply (ok_score st Hok t).
    + intros a [Ha|Ha]%elem_of_app; [by apply IH|].
      apply reset_all_actions_elem in Ha
        as (j & [t row] & [Hrow Hpos]%positive_rows_elem & ->).
      pose proof (ok_score st Hok t row Hrow).
      unfold row_typed, reset_all_action. simpl.
      split; [lia|]. split; [int4_lia|].
      right. right. left. split_and!; (done || lia || auto).
    + intros a [Ha|Ha]%elem_of_app.
      * apply list_elem_of_fmap_1 in Ha as (b & -> & Hb).
        case_decide; [apply row_typed_set_undone|]; by apply IH.
      * apply list_elem_of_singleton in Ha as ->.
        pose proof (ok_score st Hok _ row Hrow).
        unfold row_typed, undo_action, GREATEST. simpl.
        split; [lia|]. split; [lia|].
        right. right. right. split_and!; [done | by eexists | f_equal; lia].
Qed.

(** ** Undo rows and the rows they revert *)

Lemma undo_links_grow (l news : list score_action) :
  undo_links l →
  (∀ a, a ∈ news → reverts_action_id a = None ∧ action_type a ≠ "undo") →
  undo_links (l ++ news).
Proof.
  intros Hl Hnews i u Hu. apply lookup_app_Some in Hu as [Hu|[_ Hu]].
  - specialize (Hl i u Hu). destruct (reverts_action_id u) as [k|]; [|done].
    destruct Hl as (? & ? & a & ? & Ha & ?). split_and!; [done..|].
    exists a. split; [done|]. split; [|done]. by apply lookup_app_l_Some.
  - destruct (Hnews u) as [-> ?]; [|done]. by eapply list_elem_of_lookup_2.
Qed.

Lemma undo_links_reachable (st : db) : reachable st → undo_links (score_actions st).
Proof.
  revert st. apply (reachable_wrote_ind (λ st, undo_links (score_actions st))).
  - intros t0 i u Hu. simpl in Hu. by rewrite lookup_nil in Hu.
  - intros st now c st' _ Hok IH Hw.
    destruct Hw as [|t row d nw Ht Hrow Hkind| |a row Hc Hsel Hrow Hmax]; simpl.
    + done.
    + apply undo_links_grow; [done|].
      intros x Hx%list_elem_of_singleton; subst x. simpl. split; [done|].
      destruct (single_kind_type _ _ _ _ Hkind) as [Hty|[Hty|Hty]]; by rewrite Hty.
    + apply undo_links_grow; [done|].
      by intros x (j & r & _ & ->)%reset_all_actions_elem.
    + pose proof Hsel as (Hin & (Hp & Hfalse & Hty & _) & _)%select_undoable_Some.
      pose proof (log_lookup_id st a Hok Hin) as Ha.
      set (g := λ b, if decide (id b = id a) then set_undone now b else b).
      assert (∀ b, reverts_action_id (g b) = reverts_action_id b
                   ∧ action_type (g b) = action_type b
                   ∧ client_id (g b) = client_id b ∧ team (g b) = team b
                   ∧ delta (g b) = delta b
                   ∧ (undone b = true → undone (g b) = true)) as Hg.
      { intros b. unfold g. by case_decide. }
      intros i u Hu. apply lookup_app_Some in Hu as [Hu|[Hle Hu]].
      * rewrite list_lookup_fmap in Hu.
        destruct (score_actions st !! i) as [b|] eqn:Hb; [|done].
        injection Hu as <-. specialize (IH i b Hb).
        destruct (Hg b) as (-> & -> & -> & -> & -> & _).
        destruct (reverts_action_id b) as [k|]; [|done].
        destruct IH as (Hbty & Hbfalse & a0 & Hlt & Ha0 & ? & ? & ? & ? & ?).
        split; [done|]. split.
        { unfold g. rewrite decide_False; [done|].
          intros Hid. rewrite <- Hid, (ok_id st Hok i b Hb), Hb in Ha.
          congruence. }
        exists (g a0). destruct (Hg a0) as (_ & -> & -> & -> & -> & Hund).
        split_and!; try done; [|by apply Hund].
        apply lookup_app_l_Some. by rewrite list_lookup_fmap, Ha0.
      * apply list_lookup_singleton_Some in Hu as [Hi <-]. simpl.
        split; [done|]. split; [done|].
        exists (set_undone now a). split_and!; try done.
        -- rewrite length_fmap in Hle. apply lookup_lt_Some in Ha. lia.
        -- apply lookup_app_l_Some. rewrite list_lookup_fmap, Ha. simpl.
           unfold g. by rewrite decide_True.
Qed.

Lemma ref_count_app (l1 l2 : list score_action) (i : nat) :
  ref_count (l1 ++ l2) i = (ref_count l1 i + ref_count l2 i)%nat.
Proof. unfold ref_count. by rewrite filter_app, length_app. Qed.

Lemma ref_count_none (l : list score_action) (i : nat) :
  (∀ a, a ∈ l → reverts_action_id a ≠ Some i) → ref_count l i = 0%nat.
Proof.
  intros Hl. unfold ref_count.
  induction l as [|a l IH]; [done|].
  rewrite filter_cons_False by (apply Hl; left).
  apply IH. intros b Hb. apply Hl. by right.
Qed.

Lemma ref_count_fmap (g : score_action → score_action) (l : list score_action) (i : nat) :
  (∀ b, reverts_action_id (g b) = reverts_action_id b) →
  ref_count (g <$> l) i = ref_count l i.
Proof.
  intros Hg. unfold ref_count. induction l as [|a l IH]; [done|].
  rewrite fmap_cons, !filter_cons, Hg.
  case_decide; simpl; by rewrite IH.
Qed.

(** No row points at a position at or beyond the end of the log. *)
Lemma ref_count_beyond (l : list score_action) (i : nat) :
  undo_links l → (length l ≤ i)%nat → ref_count l i = 0%nat.
Proof.
  intros Hl Hi. apply ref_count_none.
  intros u [j Hu]%list_elem_of_lookup Href.
  specialize (Hl j u Hu). rewrite Href in Hl.
  destruct Hl as (_ & _ & a & Hlt & _). apply lookup_lt_Some in Hu. lia.
Qed.

Lemma ref_count_reachable (st : db) (i : nat) (a : score_action) :
  reachable st →
  score_actions st !! i = Some a →
  ref_count (score_actions st) i = if undone a then 1%nat else 0%nat.
Proof.
  intros Hr. revert i a. revert st Hr.
  apply (reachable_wrote_ind (λ st, ∀ i a, score_actions st !! i = Some a →
           ref_count (score_actions st) i = if undone a then 1%nat else 0%nat)).
  - intros t0 i a Ha. simpl in Ha. by rewrite lookup_nil in Ha.
  - intros st now c st' Hr Hok IH Hw.
    pose proof (undo_links_reachable st Hr) as Hlinks.
    assert (∀ news i a,
      (∀ x, x ∈ news → reverts_action_id x = None ∧ undone x = false) →
      (score_actions st ++ news) !! i = Some a →
      ref_count (score_actions st ++ news) i = if undone a then 1%nat else 0%nat)
      as Hgrow.
    { intros news i a Hnews Ha. rewrite ref_count_app.
      rewrite (ref_count_none news)
        by (intros x Hx; destruct (Hnews x Hx) as [-> _]; done).
      apply lookup_app_Some in Ha as [Ha|[Hi Ha]].
      - rewrite (IH i a Ha). lia.
      - rewrite ref_count_beyond by done.
        destruct (Hnews a) as [_ ->]; [|done]. by eapply list_elem_of_lookup_2. }
    destruct Hw as [|t row d nw Ht Hrow Hkind| |a0 row Hc Hsel Hrow Hmax]; simpl.
    + done.
    + intros i a. apply Hgrow. by intros x Hx%list_elem_of_singleton; subst x.
    + intros i a. apply Hgrow.
      by intros x (j & r & _ & ->)%reset_all_actions_elem.
    + pose proof Hsel as (Hin & (_ & Hfalse & _ & _) & _)%select_undoable_Some.
      pose proof (log_lookup_id st a0 Hok Hin) as Ha0.
      intros i a Ha. rewrite ref_count_app.
      rewrite ref_count_fmap by (intros b; by case_decide).
      apply lookup_app_Some in Ha as [Ha|[Hi Ha]].
      * rewrite list_lookup_fmap in Ha.
        destruct (score_actions st !! i) as [b|] eqn:Hb; [|done].
        injection Ha as <-. rewrite (IH i b Hb).
        pose proof (ok_id st Hok i b Hb) as Hidb.
        unfold ref_count. rewrite filter_cons. simpl.
        destruct (decide (id b = id a0)) as [Heq|Hne].
        -- assert (b = a0) as -> by (rewrite <- Hidb, Heq, Ha0 in Hb; congruence).
           rewrite Hfalse. rewrite decide_True by (by rewrite <- Hidb). done.
        -- rewrite decide_False by (rewrite <- Hidb; congruence).
           simpl. lia.
      * apply list_lookup_singleton_Some in Ha as [Hi' <-]. simpl.
        rewrite length_fmap in Hi, Hi'.
        rewrite ref_count_beyond by (done || lia).
        apply ref_count_none. intros x Hx%list_elem_of_singleton; subst x. simpl.
        apply lookup_lt_Some in Ha0. intros [= Heq]. lia.
Qed.

(** ** The teams *)

Lemma reset_rows_dom (now : timestamptz) (rows : list (string * score_row))
    (m : gmap string score_row) :
  (∀ r, r ∈ rows → is_Some (m !! r.1)) →
  dom (reset_rows now m rows) = dom m.
Proof.
  unfold reset_rows. revert m.
  induction rows as [|r rows IH]; intros m Hin; simpl; [done|].
  rewrite IH.
  - apply dom_insert_lookup_L, Hin. left.
  - intros r' Hr'. rewrite lookup_insert_is_Some'. right. apply Hin. by right.
Qed.

Lemma wrote_dom (st st' : db) (now : timestamptz) (c : call) :
  wrote st now c st' → dom (scores st') = dom (scores st).
Proof.
  destruct 1 as [|t row d nw Ht Hrow Hkind| |a row Hc Hsel Hrow Hmax]; simpl.
  - done.
  - by apply dom_insert_lookup_L.
  - apply reset_rows_dom. intros [t row] [Hrow _]%positive_rows_elem. by eexists.
  - by apply dom_insert_lookup_L.
Qed.

(** A row of [scores] that a call leaves with another time stamp than the
    call's own is left as it was. *)
Lemma wrote_untouched (st st' : db) (now : timestamptz) (c : call)
    (t : string) (row' : score_row) :
  wrote st now c st' →
  scores st' !! t = Some row' →
  updated_at row' ≠ now →
  scores st !! t = Some row'.
Proof.
  destruct 1 as [|t0 row d nw Ht Hrow Hkind| |a row Hc Hsel Hrow Hmax]; simpl.
  - done.
  - intros [[_ <-]|[_ ?]]%lookup_insert_Some; done.
  - destruct (decide (t ∈ (positive_rows st).*1)).
    + rewrite reset_rows_lookup_reset by done. by intros [= <-].
    + by rewrite reset_rows_lookup_other.
  - intros [[_ <-]|[_ ?]]%lookup_insert_Some; done.
Qed.

Lemma teams_fixed (st : db) :
  reachable st → dom (scores st) = dom (scores (seed_db 0)).
Proof.
  revert st.
  apply (reachable_wrote_ind (λ st, dom (scores st) = dom (scores (seed_db 0)))).
  - intros t0. simpl. by rewrite !dom_insert_L.
  - intros st now c st' _ _ IH Hw. by rewrite (wrote_dom st st' now c Hw).
Qed.

Lemma team_known_iff (st : db) (t : string) :
  reachable st →
  is_Some (scores st !! t)
  ↔ t = "blue" ∨ t = "green" ∨ t = "yellow" ∨ t = "red".
Proof.
  intros Hr. rewrite <- elem_of_dom, (teams_fixed st Hr). simpl.
  rewrite !dom_insert_L, dom_empty_L.
  rewrite !elem_of_union, !elem_of_singleton, elem_of_empty. tauto.
Qed.

(** X1: the table [scores] holds the four seeded teams in every reachable
    state: no function adds or removes a team. *)
Theorem teams_never_change (st : db) (t : string) :
  reachable st →
  is_Some (scores st !! t)
  ↔ t = "blue" ∨ t = "green" ∨ t = "yellow" ∨ t = "red".
Proof. apply team_known_iff. Qed.

Lemma teams_never_change_witness :
  reachable (run (seed_db 0) blue_up_then_reset)
  ∧ (is_Some (scores (run (seed_db 0) blue_up_then_reset) !! "purple")
     ↔ "purple" = "blue" ∨ "purple" = "green" ∨ "purple" = "yellow" ∨ "purple" = "red").
Proof.
  pose (reachable_run blue_up_then_reset _ (reachable_seed 0)) as Hr.
  split; [exact Hr|]. exact (teams_never_change _ "purple" Hr).
Defined.

(** X2: in a reachable state a call of an admitted client that names
    anything but one of the four teams is answered with [Team not found] by
    [increment_team], [decrement_team] and [reset_team] alike, and writes
    nothing. *)
Theorem unknown_team_is_refused (st : db) (now : timestamptz) (t p : string) (n : Z) :
  reachable st →
  t ≠ "blue" → t ≠ "green" → t ≠ "yellow" → t ≠ "red" →
  check_rate_limit st now p = false →
  increment_team st now t p n = Ok (st, team_not_found)
  ∧ decrement_team st now t p n = Ok (st, team_not_found)
  ∧ reset_team st now t p = Ok (st, team_not_found)
  ∧ json_get "success" team_not_found = Some (JBool false)
  ∧ json_get "error" team_not_found = Some (JText "Team not found").
Proof.
  intros Hr ? ? ? ? Hadm.
  assert (select_score st t = None) as Hnone.
  { unfold select_score. destruct (scores st !! t) as [row|] eqn:Hrow; [|done].
    assert (is_Some (scores st !! t)) as Hsome by by eexists.
    apply (team_known_iff st t Hr) in Hsome.
    destruct Hsome as [?|[?|[?|?]]]; done. }
  unfold increment_team, decrement_team, reset_team.
  rewrite Hadm, Hnone. done.
Qed.

Lemma unknown_team_is_refused_witness :
  increment_team (seed_db 0) (seconds 1) "purple" "c1" 5
  = Ok (seed_db 0, team_not_found).
Proof.
  refine (proj1 (unknown_team_is_refused (seed_db 0) (seconds 1) "purple" "c1" 5
                   (reachable_seed 0) _ _ _ _ eq_refl)); discriminate.
Defined.

(** X3: on a team above zero and for an admitted client [reset_team] puts
    the score to 0, logs one row of type reset whose delta is the negated
    previous score, and reports both scores; other teams stay as they
    are. *)
Theorem reset_team_resets_positive (st : db) (now : timestamptz)
    (p_team p_client_id : string) (row : score_row) :
  scores st !! p_team = Some row →
  0 < score row ≤ int4_max →
  check_rate_limit st now p_client_id = false →
  ∃ st' a r,
    reset_team st now p_team p_client_id = Ok (st', r)
    ∧ scores st' !! p_team = Some {| score := 0; updated_at := now |}
    ∧ (∀ t, t ≠ p_team → scores st' !! t = scores st !! t)
    ∧ score_actions st' = score_actions st ++ [a]
    ∧ team a = p_team
    ∧ client_id a = p_client_id
    ∧ action_type a = "reset"
    ∧ delta a = - score row
    ∧ prev_score a = score row
    ∧ new_score a = 0
    ∧ undone a = false
    ∧ created_at a = now
    ∧ json_get "success" r = Some (JBool true)
    ∧ json_get "prev_score" r = Some (JInt (score row))
    ∧ json_get "new_score" r = Some (JInt 0)
    ∧ json_get "action_id" r = Some (JUuid (id a))
    ∧ json_get "message" r = None.
Proof.
  intros Hrow Hpos Hadm.
  unfold reset_team. rewrite Hadm.
  unfold select_score. rewrite Hrow. simpl.
  rewrite decide_False by lia.
  unfold update_score. rewrite Hrow, decide_True by lia. simpl.
  rewrite int4_neg_in_range by int4_lia. simpl.
  eexists _, _, _. split; [reflexivity|]. simpl.
  rewrite lookup_insert_eq.
  split_and!; try reflexivity.
  intros t Ht. by rewrite lookup_insert_ne.
Qed.

Lemma reset_team_resets_positive_witness :
  ∃ st' r,
    reset_team (run (seed_db 0) blue5_yellow3) (seconds 3) "blue" "c1" = Ok (st', r)
    ∧ scores st' !! "blue" = Some {| score := 0; updated_at := seconds 3 |}.
Proof.
  destruct (reset_team_resets_positive (run (seed_db 0) blue5_yellow3)
              (seconds 3) "blue" "c1" {| score := 5; updated_at := seconds 1 |})
    as (st' & a & r & Hrun & Hscore & _).
  - reflexivity.
  - simpl. unfold int4_max. lia.
  - reflexivity.
  - exists st', r. split; [exact Hrun | exact Hscore].
Defined.

(** X4: every answer carries a boolean [success]; an answer with
    [success = false] carries a non-empty [error] text and comes with the
    database unchanged, an answer with [success = true] carries no
    [error]. *)
Theorem failure_writes_nothing (st st' : db) (now : timestamptz) (c : call) (r : json) :
  rpc st now c = Ok (st', r) →
  (json_get "success" r = Some (JBool true) ∧ json_get "error" r = None)
  ∨ (json_get "success" r = Some (JBool false)
     ∧ st' = st
     ∧ ∃ msg, json_get "error" r = Some (JText msg) ∧ msg ≠ "").
Proof.
  destruct c as [t p n|t p n|t p|p|p]; simpl;
    unfold increment_team, decrement_team, reset_team, reset_all, undo_last_action;
    repeat step_body; intros [= <- <-];
    solve [ left; split; reflexivity
          | right; split; [reflexivity|]; split; [reflexivity|];
            eexists; split; [reflexivity | discriminate] ].
Qed.

Lemma failure_writes_nothing_witness :
  json_get "success" rate_limited = Some (JBool false)
  ∧ ∃ msg, json_get "error" rate_limited = Some (JText msg) ∧ msg ≠ "".
Proof.
  destruct (failure_writes_nothing (run (seed_db 0) five_calls)
              (run (seed_db 0) five_calls) (seconds 6)
              (Increment "blue" "c1" 1) rate_limited)
    as [[Hs _]|(Hs & _ & Hmsg)].
  - reflexivity.
  - discriminate Hs.
  - split; [exact Hs | exact Hmsg].
Defined.

(** ** The log under one call *)

(** X5: a call never removes or rewrites a logged row.  The one change to
    a row already logged is the flag [undone], raised at the time of the
    call by [undo_last_action] on a row of the caller that was not undone
    and is not an undo, and on no second row; the rows a call adds carry
    the caller's client id, the time of the call and [undone = false]. *)
Theorem log_is_append_mostly (st : db) (now : timestamptz) (c : call) :
  db_ok st →
  (length (score_actions st) ≤ length (score_actions (commit st (rpc st now c))))%nat
  ∧ (∀ (i : nat) a, score_actions st !! i = Some a →
       score_actions (commit st (rpc st now c)) !! i = Some a
       ∨ (c = Undo (caller c)
          ∧ client_id a = caller c
          ∧ undone a = false
          ∧ action_type a ≠ "undo"
          ∧ score_actions (commit st (rpc st now c)) !! i = Some (set_undone now a)))
  ∧ (∀ (i j : nat) a b,
       score_actions st !! i = Some a →
       score_actions st !! j = Some b →
       score_actions (commit st (rpc st now c)) !! i ≠ Some a →
       score_actions (commit st (rpc st now c)) !! j ≠ Some b →
       i = j)
  ∧ (∀ (i : nat) a,
       (length (score_actions st) ≤ i)%nat →
       score_actions (commit st (rpc st now c)) !! i = Some a →
       client_id a = caller c
       ∧ created_at a = now
       ∧ action_type a = call_type c
       ∧ undone a = false
       ∧ undone_at a = None).
Proof.
  intros Hok.
  assert (∀ news,
    (∀ a, a ∈ news → client_id a = caller c ∧ created_at a = now
                     ∧ action_type a = call_type c
                     ∧ undone a = false ∧ undone_at a = None) →
    (length (score_actions st) ≤ length (score_actions st ++ news))%nat
    ∧ (∀ (i : nat) a, score_actions st !! i = Some a →
         (score_actions st ++ news) !! i = Some a
         ∨ (c = Undo (caller c) ∧ client_id a = caller c ∧ undone a = false
            ∧ action_type a ≠ "undo"
            ∧ (score_actions st ++ news) !! i = Some (set_undone now a)))
    ∧ (∀ (i j : nat) a b,
         score_actions st !! i = Some a → score_actions st !! j = Some b →
         (score_actions st ++ news) !! i ≠ Some a →
         (score_actions st ++ news) !! j ≠ Some b → i = j)
    ∧ (∀ (i : nat) a,
         (length (score_actions st) ≤ i)%nat →
         (score_actions st ++ news) !! i = Some a →
         client_id a = caller c ∧ created_at a = now
         ∧ action_type a = call_type c
         ∧ undone a = false ∧ undone_at a = None)) as Hgrow.
  { intros news Hnews. split_and!.
    - rewrite length_app. lia.
    - intros i a Ha. left. by apply lookup_app_l_Some.
    - intros i j a b Ha _ Hne. destruct Hne. by apply lookup_app_l_Some.
    - intros i a Hi Ha. apply lookup_app_Some in Ha as [Ha|[_ Ha]].
      + apply lookup_lt_Some in Ha. lia.
      + apply Hnews. by eapply list_elem_of_lookup_2. }
  destruct (rpc_wrote st now c Hok)
    as [|t row d nw Ht Hrow Hkind|Hc|a0 row Hc Hsel Hrow Hmax]; simpl.
  - specialize (Hgrow []). rewrite app_nil_r in Hgrow. apply Hgrow.
    intros a Ha. by apply elem_of_nil in Ha.
  - apply Hgrow. by intros a Ha%list_elem_of_singleton; subst a.
  - apply Hgrow. intros a (j & r & _ & ->)%reset_all_actions_elem.
    destruct c; try discriminate Hc. done.
  - pose proof Hsel as (Hin & (Hp & Hfalse & Hty & _) & _)%select_undoable_Some.
    pose proof (log_lookup_id st a0 Hok Hin) as Ha0.
    assert (∀ (i : nat) b, score_actions st !! i = Some b →
      (((λ b, if decide (id b = id a0) then set_undone now b else b)
          <$> score_actions st) ++
       [undo_action (length (score_actions st)) now (caller c) a0 (score row)]) !! i
      = Some (if decide (i = id a0) then set_undone now b else b)) as Hold.
    { intros i b Hb.
      rewrite lookup_app_l by (rewrite length_fmap; by eapply lookup_lt_Some).
      rewrite list_lookup_fmap, Hb. simpl. by rewrite (ok_id st Hok i b Hb). }
    split_and!.
    + rewrite length_app, length_fmap. lia.
    + intros i b Hb. rewrite (Hold i b Hb). case_decide as Hi; [|by left].
      right. subst i. rewrite Ha0 in Hb. injection Hb as <-. done.
    + intros i j a b Ha Hb. rewrite (Hold i a Ha), (Hold j b Hb).
      repeat case_decide; (done || congruence).
    + intros i a Hi Ha. apply lookup_app_Some in Ha as [Ha|[_ Ha]].
      * apply lookup_lt_Some in Ha. rewrite length_fmap in Ha. lia.
      * apply list_lookup_singleton_Some in Ha as [_ <-]. simpl.
        destruct c; try discriminate Hc. done.
Qed.

Lemma log_is_append_mostly_witness :
  Nat.le
    (length (score_actions (run (seed_db 0) up_then_down)))
    (length (score_actions (commit (run (seed_db 0) up_then_down)
               (rpc (run (seed_db 0) up_then_down) (seconds 4) (Undo "c1"))))).
Proof.
  exact (proj1 (log_is_append_mostly (run (seed_db 0) up_then_down) (seconds 4)
                  (Undo "c1")
                  (reachable_db_ok _ (reachable_run up_then_down _ (reachable_seed 0))))).
Defined.

(** ** The log in every reachable state *)

(** X6: in every reachable state each row has scores within the [INTEGER]
    range and not below 0, and columns that fit its type: an increment has
    a delta from 1 to 100 and a decrement one from -100 to -1, both with
    [new_score = prev_score + delta]; a reset or reset_all starts above 0,
    ends at 0 and has the negated previous score as delta; an undo points
    at a row and has [new_score = max (prev_score + delta) 0]. *)
Theorem rows_well_typed (st : db) (a : score_action) :
  reachable st → a ∈ score_actions st → row_typed a.
Proof. intros Hr. by apply rows_typed. Qed.

Lemma rows_well_typed_witness :
  new_action 1 (seconds 2) "blue" (-5) 5 0 "c1" "decrement" None
    ∈ score_actions (run (seed_db 0) up_then_down)
  ∧ row_typed (new_action 1 (seconds 2) "blue" (-5) 5 0 "c1" "decrement" None).
Proof.
  assert (new_action 1 (seconds 2) "blue" (-5) 5 0 "c1" "decrement" None
            ∈ score_actions (run (seed_db 0) up_then_down)) as Hin.
  { vm_compute. apply list_elem_of_further, list_elem_of_here. }
  split; [exact Hin|].
  exact (rows_well_typed _ _ (reachable_run up_then_down _ (reachable_seed 0)) Hin).
Defined.

(** X7: in every reachable state each undo row is not undone and points
    back at an earlier row that is not an undo, was written by the same
    client for the same team, is flagged undone and has the opposite delta;
    a row that points nowhere is not an undo. *)
Theorem undo_rows_link_back (st : db) :
  reachable st → undo_links (score_actions st).
Proof. apply undo_links_reachable. Qed.

Lemma undo_rows_link_back_witness :
  undo_links (score_actions (run (seed_db 0)
    (up_then_down ++ [(seconds 4, Undo "c1")]))).
Proof.
  exact (undo_rows_link_back _ (reachable_run _ _ (reachable_seed 0))).
Defined.

(** X8: in every reachable state the number of undo rows that point at a
    row is 1 when the row is flagged undone and 0 when it is not: no row
    is reverted twice, and none is flagged without an undo row. *)
Theorem row_reverted_at_most_once (st : db) (i : nat) (a : score_action) :
  reachable st →
  score_actions st !! i = Some a →
  ref_count (score_actions st) i = if undone a then 1%nat else 0%nat.
Proof. apply ref_count_reachable. Qed.

Lemma row_reverted_at_most_once_witness :
  ref_count (score_actions (run (seed_db 0)
    (up_then_down ++ [(seconds 4, Undo "c1"); (seconds 5, Undo "c1")]))) 1 = 1%nat.
Proof.
  refine (row_reverted_at_most_once _ 1%nat
    {| id := 1%nat; team := "blue"; delta := -5; prev_score := 5; new_score := 0;
       client_id := "c1"; action_type := "decrement"; reverts_action_id := None;
       undone := true; undone_at := Some (seconds 4); created_at := seconds 2 |}
    (reachable_run _ _ (reachable_seed 0)) _).
  reflexivity.
Defined.

(** ** Scores and the rows of a team *)

Lemma filter_team_fmap (g : score_action → score_action) (l : list score_action)
    (t : string) :
  (∀ b, team (g b) = team b) →
  filter (λ a, team a = t) (g <$> l) = g <$> filter (λ a, team a = t) l.
Proof.
  intros Hg. induction l as [|a l IH]; [done|].
  rewrite fmap_cons, !filter_cons, Hg, IH. by case_decide.
Qed.

Lemma last_of_team_app (l1 l2 : list score_action) (t : string) :
  last_of_team (l1 ++ l2) t =
    match last_of_team l2 t with
    | Some a => Some a
    | None => last_of_team l1 t
    end.
Proof. unfold last_of_team. by rewrite filter_app, last_app. Qed.

Lemma last_of_team_fmap (g : score_action → score_action) (l : list score_action)
    (t : string) :
  (∀ b, team (g b) = team b) →
  last_of_team (g <$> l) t = g <$> last_of_team l t.
Proof.
  intros Hg. unfold last_of_team. by rewrite filter_team_fmap, fmap_last.
Qed.

Lemma last_of_team_singleton (a : score_action) (t : string) :
  last_of_team [a] t = if decide (team a = t) then Some a else None.
Proof. unfold last_of_team. rewrite filter_cons. by case_decide. Qed.

Lemma reset_all_actions_take (k : uuid) (now : timestamptz) (p : string)
    (rows : list (string * score_row)) (j : nat) :
  take j (reset_all_actions k now p rows) = reset_all_actions k now p (take j rows).
Proof.
  revert k j. induction rows as [|r rows IH]; intros k [|j]; simpl; try done.
  by rewrite IH.
Qed.

Lemma reset_all_actions_lookup_row (k : uuid) (now : timestamptz) (p : string)
    (rows : list (string * score_row)) (j : nat) (a : score_action) :
  reset_all_actions k now p rows !! j = Some a →
  ∃ r, rows !! j = Some r ∧ a = reset_all_action (k + j) now p r.
Proof.
  revert k j. induction rows as [|r rows IH]; intros k [|j]; simpl; try done.
  - intros [= <-]. exists r. split; [done|]. f_equal. lia.
  - intros (r' & Hr' & ->)%IH. exists r'. split; [done|]. f_equal. lia.
Qed.

Lemma NoDup_fst_take_lookup (rows : list (string * score_row)) (j : nat)
    (r : string * score_row) :
  NoDup rows.*1 → rows !! j = Some r → r.1 ∉ (take j rows).*1.
Proof.
  revert j. induction rows as [|r0 rows IH]; intros [|j]; simpl; try done.
  - intros _ _ Hin. by apply elem_of_nil in Hin.
  - intros [Hnin Hnd]%NoDup_cons Hr. rewrite not_elem_of_cons. split.
    + intros Heq. apply Hnin. rewrite <- Heq.
      apply (list_elem_of_fmap_2' fst _ r); [|done]. by eapply list_elem_of_lookup_2.
    + by apply IH.
Qed.

Lemma last_of_team_reset_all_absent (k : uuid) (now : timestamptz) (p : string)
    (rows : list (string * score_row)) (t : string) :
  t ∉ rows.*1 → last_of_team (reset_all_actions k now p rows) t = None.
Proof.
  intros Hnin. unfold last_of_team. by rewrite reset_all_actions_team_absent.
Qed.

Lemma last_of_team_reset_all_present (k : uuid) (now : timestamptz) (p : string)
    (rows : list (string * score_row)) (t : string) (row : score_row) :
  NoDup rows.*1 → (t, row) ∈ rows →
  ∃ j, last_of_team (reset_all_actions k now p rows) t
       = Some (reset_all_action j now p (t, row)).
Proof.
  intros Hnd Hin. unfold last_of_team.
  destruct (reset_all_actions_team_present k now p rows t row Hnd Hin) as [j ->].
  by exists j.
Qed.

(** The score of a team is the [new_score] of its last row. *)
Lemma score_is_last_new_score (st : db) (t : string) (row : score_row) :
  reachable st →
  scores st !! t = Some row →
  match last_of_team (score_actions st) t with
  | Some a => score row = new_score a ∧ updated_at row = created_at a
  | None => score row = 0
  end.
Proof.
  intros Hr. revert t row. revert st Hr.
  apply (reachable_wrote_ind (λ st, ∀ t row, scores st !! t = Some row →
    match last_of_team (score_actions st) t with
    | Some a => score row = new_score a ∧ updated_at row = created_at a
    | None => score row = 0
    end)).
  - intros t0 t row H. simpl in *.
    repeat (apply lookup_insert_Some in H as [[_ <-]|[_ H]]; [done|]).
    by rewrite lookup_empty in H.
  - intros st now c st' _ Hok IH Hw.
    destruct Hw as [|t0 row0 d nw Ht Hrow0 Hkind| |a0 row0 Hc Hsel Hrow0 Hmax]; simpl.
    + done.
    + intros t row. rewrite last_of_team_app, last_of_team_singleton. simpl.
      intros [[-> <-]|[Hne Hrow]]%lookup_insert_Some.
      * by rewrite decide_True.
      * rewrite decide_False by done. by apply IH.
    + intros t row. rewrite last_of_team_app.
      destruct (decide (t ∈ (positive_rows st).*1)) as [Hin|Hnin].
      * rewrite reset_rows_lookup_reset by done. intros [= <-].
        apply list_elem_of_fmap_1 in Hin as ([t' row'] & -> & Hin). simpl.
        destruct (last_of_team_reset_all_present (length (score_actions st)) now
                    (caller c) (positive_rows st) t' row' (positive_rows_NoDup st) Hin)
          as [j ->].
        done.
      * rewrite reset_rows_lookup_other by done.
        rewrite last_of_team_reset_all_absent by done. apply IH.
    + intros t row. rewrite last_of_team_app, last_of_team_singleton. simpl.
      rewrite last_of_team_fmap by (intros b; by case_decide).
      intros [[-> <-]|[Hne Hrow]]%lookup_insert_Some.
      * by rewrite decide_True.
      * rewrite decide_False by done. specialize (IH t row Hrow).
        destruct (last_of_team (score_actions st) t) as [b|]; simpl; [|done].
        by case_decide.
Qed.

(** The [prev_score] of a row is the [new_score] of the row logged before
    it for the same team, and 0 for the first row of a team. *)
Lemma prev_score_is_previous_new_score (st : db) (i : nat) (a : score_action) :
  reachable st →
  score_actions st !! i = Some a →
  prev_score a
  = default 0 (new_score <$> last_of_team (take i (score_actions st)) (team a)).
Proof.
  intros Hr. revert i a. revert st Hr.
  apply (reachable_wrote_ind (λ st, ∀ i a, score_actions st !! i = Some a →
    prev_score a
    = default 0 (new_score <$> last_of_team (take i (score_actions st)) (team a)))).
  - intros t0 i a Ha. simpl in Ha. by rewrite lookup_nil in Ha.
  - intros st now c st' Hr Hok IH Hw.
    assert (∀ t row, scores st !! t = Some row →
      score row = default 0 (new_score <$> last_of_team (score_actions st) t))
      as Hlast.
    { intros t row Hrow. pose proof (score_is_last_new_score st t row Hr Hrow) as H.
      destruct (last_of_team (score_actions st) t); simpl; [by destruct H | done]. }
    destruct Hw as [|t0 row0 d nw Ht Hrow0 Hkind| |a0 row0 Hc Hsel Hrow0 Hmax]; simpl.
    + done.
    + intros i a [Ha|[Hi Ha]]%lookup_app_Some.
      * rewrite take_app_le by (apply lookup_lt_Some in Ha; lia). by apply IH.
      * apply list_lookup_singleton_Some in Ha as [Hi' <-]. simpl.
        assert (i = length (score_actions st)) as -> by lia.
        rewrite take_app_length. by apply Hlast.
    + intros i a [Ha|[Hi Ha]]%lookup_app_Some.
      * rewrite take_app_le by (apply lookup_lt_Some in Ha; lia). by apply IH.
      * apply reset_all_actions_lookup_row in Ha as ([t row] & Hj & ->). simpl.
        rewrite take_app_ge by done.
        rewrite reset_all_actions_take, last_of_team_app.
        rewrite last_of_team_reset_all_absent.
        -- apply Hlast. apply list_elem_of_lookup_2 in Hj.
           by apply positive_rows_elem in Hj as [? _].
        -- apply (NoDup_fst_take_lookup _ _ (t, row)); [|done].
           apply positive_rows_NoDup.
    + assert (∀ b, team (if decide (id b = id a0) then set_undone now b else b)
                   = team b) as Hg by (intros b; by case_decide).
      intros i a [Ha|[Hi Ha]]%lookup_app_Some.
      * rewrite take_app_le
          by (apply lookup_lt_Some in Ha; rewrite length_fmap in *; lia).
        rewrite <- fmap_take. rewrite list_lookup_fmap in Ha.
        destruct (score_actions st !! i) as [b|] eqn:Hb; [|done].
        injection Ha as <-. rewrite Hg, last_of_team_fmap by done.
        rewrite <- option_fmap_compose.
        transitivity (prev_score b); [by case_decide|].
        rewrite (IH i b Hb). f_equal.
        destruct (last_of_team (take i (score_actions st)) (team b)); simpl; [|done].
        by case_decide.
      * apply list_lookup_singleton_Some in Ha as [Hi' <-]. simpl.
        rewrite length_fmap in Hi, Hi'.
        assert (i = length ((λ b, if decide (id b = id a0) then set_undone now b else b)
                              <$> score_actions st)) as ->
          by (rewrite length_fmap; lia).
        rewrite take_app_length, last_of_team_fmap by done.
        rewrite <- option_fmap_compose. rewrite (Hlast _ row0 Hrow0). f_equal.
        destruct (last_of_team (score_actions st) (team a0)); simpl; [|done].
        by case_decide.
Qed.

(** X9: in every reachable state the score of a team is the [new_score] of
    the last row logged for it and its [updated_at] that row's
    [created_at], or 0 when the team has no row; and the [prev_score] of
    every row is the [new_score] of the row logged before it for the same
    team, or 0 for the first. *)
Theorem scores_follow_the_log (st : db) :
  reachable st →
  (∀ t row, scores st !! t = Some row →
     match last_of_team (score_actions st) t with
     | Some a => score row = new_score a ∧ updated_at row = created_at a
     | None => score row = 0
     end)
  ∧ (∀ (i : nat) a, score_actions st !! i = Some a →
       prev_score a
       = default 0 (new_score <$> last_of_team (take i (score_actions st)) (team a))).
Proof.
  intros Hr. split.
  - intros t row. by apply score_is_last_new_score.
  - intros i a. by apply prev_score_is_previous_new_score.
Qed.

Lemma scores_follow_the_log_witness :
  match last_of_team (score_actions (run (seed_db 0) up_then_down)) "blue" with
  | Some a => 0 = new_score a ∧ seconds 2 = created_at a
  | None => 0 = 0
  end.
Proof.
  exact (proj1 (scores_follow_the_log _ (reachable_run up_then_down _ (reachable_seed 0)))
           "blue" {| score := 0; updated_at := seconds 2 |} eq_refl).
Defined.

(** ** Replaying the log *)

(** X10: in every reachable state the score of a team is the sum, over the
    rows of the team, of [new_score - prev_score]; every row that is not an
    undo has exactly that difference as its [delta]; so the score is the sum
    of the logged deltas as long as every undo row has it too. *)
Theorem score_replays_applied_changes (st : db) (t : string) :
  reachable st →
  score_of st t = sum_col applied (score_actions st) t
  ∧ (∀ a, a ∈ score_actions st → action_type a ≠ "undo" → delta a = applied a)
  ∧ ((∀ a, a ∈ score_actions st → action_type a = "undo" → delta a = applied a) →
     score_of st t = sum_deltas st t).
Proof.
  intros Hr. split_and!.
  - by apply score_is_sum_of_applied.
  - intros a. by apply delta_is_applied_unless_undo.
  - by apply replay_holds_unless_floored.
Qed.

Lemma score_replays_applied_changes_witness :
  score_of (run (seed_db 0) (blue_up_then_reset ++ [(seconds 3, Undo "c1")])) "blue"
  = sum_col applied
      (score_actions (run (seed_db 0) (blue_up_then_reset ++ [(seconds 3, Undo "c1")])))
      "blue".
Proof.
  exact (proj1 (score_replays_applied_changes _ "blue"
                  (reachable_run _ _ (reachable_seed 0)))).
Defined.

(** X11: whenever [undo_last_action] succeeds, the row it adds carries the
    negated delta of the reverted row, while the score of the team moves by
    [max (current - delta) 0 - current]; the two agree exactly when
    [current - delta] is not negative. *)
Theorem undo_writes_negated_delta (st st' : db) (now : timestamptz) (p : string)
    (r : json) :
  undo_last_action st now p = Ok (st', r) →
  json_get "success" r = Some (JBool true) →
  ∃ a row u,
    select_undoable st now p = Some a
    ∧ scores st !! team a = Some row
    ∧ last (score_actions st') = Some u
    ∧ delta u = - delta a
    ∧ score_of st' (team a) - score_of st (team a)
      = Z.max (score row - delta a) 0 - score row
    ∧ (delta u = score_of st' (team a) - score_of st (team a)
       ↔ 0 ≤ score row - delta a).
Proof.
  intros Hundo Hsuccess.
  destruct (undo_row_delta st st' now p r Hundo Hsuccess)
    as (a & row & u & Hsel & Hrow & Hlast & Hdelta & Happ & Hmove & Hiff).
  exists a, row, u. split_and!; try done.
  - by rewrite Hmove, Happ.
  - by rewrite Hmove.
Qed.

Lemma undo_writes_negated_delta_witness :
  ∃ a row u,
    select_undoable (run (seed_db 0) up_then_down) (seconds 4) "c1" = Some a
    ∧ scores (run (seed_db 0) up_then_down) !! team a = Some row
    ∧ last (score_actions (run (seed_db 0) (up_then_down ++ [(seconds 4, Undo "c1")])))
      = Some u
    ∧ delta u = - delta a.
Proof.
  destruct (undo_writes_negated_delta (run (seed_db 0) up_then_down)
              (run (seed_db 0) (up_then_down ++ [(seconds 4, Undo "c1")]))
              (seconds 4) "c1"
              (json_build_object
                 [("success", JBool true); ("team", JText "blue");
                  ("prev_score", JInt 0); ("new_score", JInt 5);
                  ("reverted_action_id", JUuid 1); ("undo_action_id", JUuid 2)]))
    as (a & row & u & Hsel & Hrow & Hlast & Hdelta & _).
  - vm_compute. reflexivity.
  - reflexivity.
  - exists a, row, u. split_and!; [exact Hsel | exact Hrow | exact Hlast | exact Hdelta].
Defined.

(** ** Undo as the inverse of a write *)

Lemma order_by_created_at_newest (rows : list score_action) (a : score_action) :
  a ∈ rows →
  (∀ b, b ∈ rows → created_at b < created_at a ∨ b = a) →
  order_by_created_at_desc_limit_1 rows = Some a.
Proof.
  intros Hin Hnew.
  destruct (order_by_created_at_desc_limit_1 rows) as [x|] eqn:Hsel.
  - apply order_by_created_at_Some in Hsel as [Hx Hmax].
    destruct (Hnew x Hx) as [Hlt| ->]; [|done].
    specialize (Hmax a Hin). lia.
  - apply order_by_created_at_None in Hsel. subst rows.
    by apply elem_of_nil in Hin.
Qed.

(** A call of client [p] at [now2] picks one of the rows in [news] when
    these are eligible and all older rows of [p] are older than they. *)
Lemma select_undoable_among_new (l news : list score_action) (sc : gmap string score_row)
    (now now2 : timestamptz) (p : string) :
  news ≠ [] →
  (∀ b, b ∈ l → client_id b = p → created_at b < now) →
  (∀ x, x ∈ news → undoable now2 p x ∧ created_at x = now) →
  ∃ x, x ∈ news
       ∧ select_undoable {| scores := sc; score_actions := l ++ news |} now2 p = Some x.
Proof.
  intros Hne Hold Hnews. unfold select_undoable. simpl.
  destruct (order_by_created_at_desc_limit_1
              (filter (undoable now2 p) (l ++ news))) as [x|] eqn:Hsel.
  - exists x. split; [|done].
    apply order_by_created_at_Some in Hsel as [Hx Hmax].
    apply list_elem_of_filter in Hx as [Hu [Hx|Hx]%elem_of_app]; [|done].
    destruct news as [|y news]; [done|].
    destruct (Hnews y) as [Hyu Hy]; [left|].
    assert (created_at y ≤ created_at x) as Hle.
    { apply Hmax, list_elem_of_filter. split; [done|].
      apply elem_of_app. right. left. }
    destruct Hu as (Hp & _). specialize (Hold x Hx Hp). lia.
  - apply order_by_created_at_None in Hsel.
    destruct news as [|y news]; [done|].
    destruct (Hnews y) as [Hyu Hy]; [left|].
    exfalso. eapply (filter_nil_not_elem_of _ _ y Hsel Hyu).
    apply elem_of_app. right. left.
Qed.

(** X12: when an admitted client has just written to a team with
    [increment_team], [decrement_team] or [reset_team], all its earlier rows
    being older, its next [undo_last_action] within sixty seconds reverts
    that very row and puts every score back to what it was before the
    write. *)
Theorem undo_restores_own_write (st st1 : db) (now now2 : timestamptz) (c : call)
    (t : string) (r1 : json) :
  db_ok st →
  call_team c = Some t →
  rpc st now c = Ok (st1, r1) →
  st1 ≠ st →
  (∀ b, b ∈ score_actions st → client_id b = caller c → created_at b < now) →
  now2 - seconds 60 < now →
  check_rate_limit st1 now2 (caller c) = false →
  ∃ st2 r2,
    undo_last_action st1 now2 (caller c) = Ok (st2, r2)
    ∧ json_get "success" r2 = Some (JBool true)
    ∧ json_get "reverted_action_id" r2 = Some (JUuid (length (score_actions st)))
    ∧ (∀ t', score_of st2 t' = score_of st t').
Proof.
  intros Hok Ht Hrun Hchanged Hold Hwin Hadm.
  pose proof (rpc_wrote st now c Hok) as Hw.
  pose proof (db_ok_rpc st now c Hok) as Hok1.
  rewrite Hrun in Hw, Hok1. simpl in Hw, Hok1.
  inversion Hw as [Heq|t0 row d nw Ht0 Hrow Hkind Hst1|Hc Hst1|a row Hc Hsel Hrow Hmax Hst1];
    [done| |rewrite Hc in Ht; discriminate|rewrite Hc in Ht; discriminate].
  assert (t0 = t) as -> by congruence.
  pose proof (ok_score st Hok t row Hrow) as Hscore.
  set (x := new_action (length (score_actions st)) now t d (score row) nw
              (caller c) (call_type c) None) in *.
  assert (undoable now2 (caller c) x ∧ created_at x = now) as Hx.
  { split; [|done]. unfold undoable. simpl. split_and!; try done.
    - destruct (single_kind_type _ _ _ _ Hkind) as [Hty|[Hty|Hty]]; by rewrite Hty.
    - unfold v_undo_window. lia. }
  destruct (select_undoable_among_new (score_actions st) [x]
              (<[t := {| score := nw; updated_at := now |}]> (scores st))
              now now2 (caller c)) as (x' & Hx' & Hsel); [done|done| |].
  { intros y Hy%list_elem_of_singleton. by subst y. }
  apply list_elem_of_singleton in Hx'. subst x'.
  rewrite Hst1 in Hsel.
  assert (scores st1 !! team x = Some {| score := nw; updated_at := now |}) as Hrow1.
  { rewrite <- Hst1. simpl. apply lookup_insert_eq. }
  assert (nw - d = score row) as Hback.
  { simpl in Hkind. inversion Hkind; lia. }
  destruct (undo_last_action_returns st1 now2 (caller c) x _ Hok1 Hadm Hsel Hrow1)
    as (st2 & r2 & Hundo & Hsuccess).
  { simpl. rewrite Hback. lia. }
  rewrite Hst1. exists st2, r2. split; [done|]. split; [done|].
  apply undo_last_action_inv in Hundo
    as [[_ [[Hlim _] | (_ & Hnone & _)]]
       |(a & row1 & _ & Hsel' & Hrow1' & _ & Hscores & _ & ->)];
    [congruence | congruence |].
  assert (a = x) as -> by congruence.
  assert (row1 = {| score := nw; updated_at := now |}) as -> by congruence.
  split; [done|].
  intros t'. unfold score_of, select_score. rewrite Hscores, <- Hst1. simpl.
  rewrite Hback. unfold GREATEST. rewrite Z.max_l by lia.
  destruct (decide (t = t')) as [<-|Hne].
  - by rewrite lookup_insert_eq, Hrow.
  - by rewrite !lookup_insert_ne.
Qed.

Lemma undo_restores_own_write_witness :
  ∃ st2 r2,
    undo_last_action (run (seed_db 0) up_then_down) (seconds 4) "c1" = Ok (st2, r2)
    ∧ ∀ t', score_of st2 t'
            = score_of (run (seed_db 0) [(seconds 1, Increment "blue" "c1" 5)]) t'.
Proof.
  destruct (undo_restores_own_write
              (run (seed_db 0) [(seconds 1, Increment "blue" "c1" 5)])
              (run (seed_db 0) up_then_down)
              (seconds 2) (seconds 4) (Decrement "blue" "c1" 10) "blue"
              (json_build_object
                 [("success", JBool true); ("team", JText "blue");
                  ("prev_score", JInt 5); ("new_score", JInt 0);
                  ("action_id", JUuid 1)]))
    as (st2 & r2 & Hundo & _ & _ & Hback).
  - apply reachable_db_ok, reachable_run, reachable_seed.
  - reflexivity.
  - vm_compute. reflexivity.
  - intros Heq. apply (f_equal (λ s, length (score_actions s))) in Heq.
    vm_compute in Heq. discriminate Heq.
  - intros b Hb Hp. apply list_elem_of_singleton in Hb. subst b.
    vm_compute. reflexivity.
  - vm_compute. reflexivity.
  - reflexivity.
  - exists st2, r2. split; [exact Hundo | exact Hback].
Defined.

(** X13: after a [reset_all] that reset at least one team, the caller's
    next [undo_last_action] within sixty seconds (its earlier rows being
    older) brings back the score of one of the reset teams only: every
    other team stays at 0. *)
Theorem undo_after_reset_all_restores_one_team (st : db) (now now2 : timestamptz)
    (p : string) :
  db_ok st →
  check_rate_limit st now p = false →
  teams_above_zero st ≠ 0%nat →
  (∀ b, b ∈ score_actions st → client_id b = p → created_at b < now) →
  now2 - seconds 60 < now →
  check_rate_limit (commit st (reset_all st now p)) now2 p = false →
  ∃ st2 r2 t row,
    undo_last_action (commit st (reset_all st now p)) now2 p = Ok (st2, r2)
    ∧ json_get "success" r2 = Some (JBool true)
    ∧ scores st !! t = Some row
    ∧ 0 < score row
    ∧ score_of st2 t = score row
    ∧ (∀ t', t' ≠ t → score_of st2 t' = 0).
Proof.
  intros Hok Hadm Hsome Hold Hwin.
  pose proof (db_ok_reset_all st now p Hok) as Hok1.
  rewrite reset_all_admitted in * by done. simpl in *. intros Hadm1.
  set (news := reset_all_actions (length (score_actions st)) now p (positive_rows st))
    in *.
  destruct (select_undoable_among_new (score_actions st) news
              (reset_rows now (scores st) (positive_rows st)) now now2 p)
    as (x & Hx & Hsel); [| done | |].
  { intros Hnil. apply Hsome. rewrite <- positive_rows_length.
    rewrite <- (reset_all_actions_length (length (score_actions st)) now p).
    fold news. by rewrite Hnil. }
  { intros y (j & r & _ & ->)%reset_all_actions_elem.
    split; [|done]. unfold undoable, v_undo_window. simpl. split_and!; (done || lia). }
  apply reset_all_actions_elem in Hx
    as (j & [t row] & [Hrow Hpos]%positive_rows_elem & ->).
  pose proof (ok_score st Hok t row Hrow) as Hscore.
  assert (∀ t', score_of {| scores := reset_rows now (scores st) (positive_rows st);
                            score_actions := score_actions st ++ news |} t' = 0)
    as Hzero.
  { intros t'. unfold score_of, select_score. simpl.
    destruct (decide (t' ∈ (positive_rows st).*1)) as [Hin|Hnin].
    - by rewrite reset_rows_lookup_reset.
    - rewrite reset_rows_lookup_other by done.
      destruct (scores st !! t') as [row'|] eqn:Hrow'; [|done]. simpl.
      pose proof (ok_score st Hok t' row' Hrow').
      destruct (decide (score row' > 0)) as [Hgt|]; [|lia].
      exfalso. apply Hnin.
      apply (list_elem_of_fmap_2' fst _ (t', row')); [|done].
      by apply positive_rows_elem. }
  assert (reset_rows now (scores st) (positive_rows st) !! t
          = Some {| score := 0; updated_at := now |}) as Hrow1.
  { apply reset_rows_lookup_reset.
    apply (list_elem_of_fmap_2' fst _ (t, row)); [|done]. by apply positive_rows_elem. }
  destruct (undo_last_action_returns _ now2 p _ _ Hok1 Hadm1 Hsel Hrow1)
    as (st2 & r2 & Hundo & Hsuccess).
  { simpl. lia. }
  exists st2, r2, t, row. split_and!; try done; [lia| |].
  all: apply undo_last_action_inv in Hundo
    as [[_ [[Hlim _] | (_ & Hnone & _)]]
       |(a & row1 & _ & Hsel' & Hrow1' & _ & Hscores & _ & _)];
    [congruence | congruence |];
    assert (a = reset_all_action j now p (t, row)) as -> by congruence;
    simpl in Hrow1'; assert (row1 = {| score := 0; updated_at := now |}) as ->
      by congruence.
  - unfold score_of, select_score. rewrite Hscores. simpl.
    rewrite lookup_insert_eq. simpl. unfold GREATEST. lia.
  - intros t' Hne. specialize (Hzero t').
    unfold score_of, select_score in *. rewrite Hscores. simpl in *.
    by rewrite lookup_insert_ne.
Qed.

Lemma undo_after_reset_all_restores_one_team_witness :
  ∃ st2 r2 t row,
    undo_last_action
      (commit (run (seed_db 0) blue5_yellow3)
         (reset_all (run (seed_db 0) blue5_yellow3) (seconds 3) "c3"))
      (seconds 4) "c3" = Ok (st2, r2)
    ∧ scores (run (seed_db 0) blue5_yellow3) !! t = Some row
    ∧ score_of st2 t = score row
    ∧ (∀ t', t' ≠ t → score_of st2 t' = 0).
Proof.
  destruct (undo_after_reset_all_restores_one_team (run (seed_db 0) blue5_yellow3)
              (seconds 3) (seconds 4) "c3")
    as (st2 & r2 & t & row & Hundo & _ & Hrow & _ & Hback & Hrest).
  - apply reachable_db_ok, reachable_run, reachable_seed.
  - reflexivity.
  - vm_compute. discriminate.
  - intros b Hb Hp. exfalso.
    repeat (apply elem_of_cons in Hb as [->|Hb]; [discriminate Hp|]).
    by apply elem_of_nil in Hb.
  - vm_compute. reflexivity.
  - reflexivity.
  - exists st2, r2, t, row. split_and!; assumption.
Defined.

(** ** The rate limit over time and across clients *)

Lemma action_count_app (sc sc' : gmap string score_row) (l news : list score_action)
    (now : timestamptz) (p : string) :
  action_count {| scores := sc; score_actions := l ++ news |} now p
  = action_count {| scores := sc'; score_actions := l |} now p
    + Z.of_nat (length (filter (recent_by now p) news)).
Proof. unfold action_count. simpl. rewrite filter_app, length_app. lia. Qed.

Lemma filter_recent_fmap (g : score_action → score_action) (l : list score_action)
    (now : timestamptz) (p : string) :
  (∀ b, client_id (g b) = client_id b ∧ created_at (g b) = created_at b) →
  length (filter (recent_by now p) (g <$> l)) = length (filter (recent_by now p) l).
Proof.
  intros Hg. induction l as [|a l IH]; [done|].
  rewrite fmap_cons, !filter_cons.
  destruct (Hg a) as [E1 E2].
  destruct (decide (recent_by now p (g a))) as [H1|H1],
           (decide (recent_by now p a)) as [H2|H2]; simpl; rewrite ?IH; try done.
  - destruct H2. unfold recent_by in *. by rewrite <- E1, <- E2.
  - destruct H1. unfold recent_by in *. by rewrite E1, E2.
Qed.

Lemma filter_recent_new (news : list score_action) (now now' : timestamptz) (p q : string) :
  (∀ a, a ∈ news → client_id a = q ∧ created_at a = now) →
  length (filter (recent_by now' p) news)
  = if decide (q = p ∧ now' - rate_limit_window < now) then length news else 0%nat.
Proof.
  intros Hnews. induction news as [|a news IH]; [by case_decide|].
  destruct (Hnews a) as [Hq Hnow]; [left|].
  specialize (IH (λ b Hb, Hnews b (list_elem_of_further b a news Hb))).
  rewrite filter_cons. revert IH.
  destruct (decide (recent_by now' p a)) as [H1|H1],
           (decide (q = p ∧ now' - rate_limit_window < now)) as [H2|H2];
    simpl; intros IH; rewrite ?IH; try done.
  - destruct H2. unfold recent_by in H1. rewrite Hq, Hnow in H1.
    split; [tauto|lia].
  - destruct H1. unfold recent_by. rewrite Hq, Hnow. split; [tauto|lia].
Qed.

Lemma action_count_step (st : db) (now now' : timestamptz) (c : call)
    (p : string) :
  db_ok st →
  action_count (commit st (rpc st now c)) now' p
  = action_count st now' p
    + (if decide (caller c = p ∧ now' - rate_limit_window < now)
       then Z.of_nat (length (score_actions (commit st (rpc st now c)))
                      - length (score_actions st))
       else 0).
Proof.
  intros Hok.
  assert (∀ sc' news,
    (∀ a, a ∈ news → client_id a = caller c ∧ created_at a = now) →
    action_count {| scores := sc'; score_actions := score_actions st ++ news |} now' p
    = action_count st now' p
      + (if decide (caller c = p ∧ now' - rate_limit_window < now)
         then Z.of_nat (length (score_actions st ++ news) - length (score_actions st))
         else 0)) as Hgrow.
  { intros sc' news Hnews.
    rewrite (action_count_app sc' (scores st)). destruct st as [sc l]. simpl.
    rewrite (filter_recent_new news now now' p (caller c)) by done.
    rewrite length_app.
    destruct (decide (caller c = p ∧ now' - rate_limit_window < now));
      [f_equal; lia | done]. }
  destruct (rpc_wrote st now c Hok)
    as [|t row d nw Ht Hrow Hkind|Hc|a0 row Hc Hsel Hrow Hmax].
  - rewrite Nat.sub_diag.
    destruct (decide (caller c = p ∧ now' - rate_limit_window < now)); lia.
  - apply Hgrow. intros a Ha%list_elem_of_singleton. by subst a.
  - apply Hgrow. by intros a (j & r & _ & ->)%reset_all_actions_elem.
  - unfold action_count. simpl.
    rewrite filter_app, !length_app, length_fmap.
    rewrite (filter_recent_fmap
               (λ b, if decide (id b = id a0) then set_undone now b else b)).
    2:{ intros b. simpl. by destruct (decide (id b = id a0)). }
    rewrite (filter_recent_new
               [undo_action (length (score_actions st)) now (caller c) a0 (score row)]
               now now' p (caller c))
      by (intros a Ha%list_elem_of_singleton; by subst a).
    simpl. destruct (decide (caller c = p ∧ now' - rate_limit_window < now)); lia.
Qed.

(** X14: a call changes a client's count of recent rows, seen at any time
    [now'], by the number of rows the call wrote when the caller is that
    client and the call lies less than ten seconds before [now'], and not
    at all otherwise: calls of other clients, refused calls and calls that
    write nothing never count. *)
Theorem rate_limit_counts_own_writes (st : db) (now now' : timestamptz) (c : call)
    (p : string) :
  db_ok st →
  action_count (commit st (rpc st now c)) now' p
  = action_count st now' p
    + (if decide (caller c = p ∧ now' - rate_limit_window < now)
       then Z.of_nat (length (score_actions (commit st (rpc st now c)))
                      - length (score_actions st))
       else 0).
Proof. apply action_count_step. Qed.

Lemma rate_limit_counts_own_writes_witness :
  action_count (run (seed_db 0) (all_teams_up ++ [(seconds 5, ResetAll "c1")]))
    (seconds 6) "c2"
  = action_count (run (seed_db 0) all_teams_up) (seconds 6) "c2" + 0.
Proof.
  exact (rate_limit_counts_own_writes (run (seed_db 0) all_teams_up)
           (seconds 5) (seconds 6) (ResetAll "c1") "c2"
           (reachable_db_ok _ (reachable_run all_teams_up _ (reachable_seed 0)))).
Defined.

(** X15: a client all of whose rows are at least ten seconds old is
    admitted by every function, however many rows it has. *)
Theorem rate_limit_expires (st : db) (now : timestamptz) (c : call) :
  (∀ b, b ∈ score_actions st → client_id b = caller c →
     created_at b ≤ now - seconds 10) →
  action_count st now (caller c) = 0
  ∧ check_rate_limit st now (caller c) = false
  ∧ ∀ st', rpc st now c ≠ Ok (st', rate_limited).
Proof.
  intros Hold.
  assert (action_count st now (caller c) = 0) as Hzero.
  { unfold action_count.
    replace (filter (recent_by now (caller c)) (score_actions st)) with
      (@nil score_action); [done|].
    symmetry. induction (score_actions st) as [|a l IH]; [done|].
    rewrite filter_cons_False.
    - apply IH. intros b Hb. apply Hold. by right.
    - intros [Hp Hnew]. specialize (Hold a (list_elem_of_here a l) Hp).
      unfold rate_limit_window in Hnew. lia. }
  assert (check_rate_limit st now (caller c) = false) as Hadm.
  { apply check_rate_limit_false. rewrite Hzero. done. }
  split_and!; [done..|]. by apply rpc_admitted_not_rate_limited.
Qed.

Lemma rate_limit_expires_witness :
  check_rate_limit (run (seed_db 0) five_calls) (seconds 15) "c1" = false.
Proof.
  refine (proj1 (proj2 (rate_limit_expires (run (seed_db 0) five_calls) (seconds 15)
                          (Increment "blue" "c1" 1) _))).
  intros b Hb _.
  repeat (apply elem_of_cons in Hb as [->|Hb]; [vm_compute; discriminate|]).
  by apply elem_of_nil in Hb.
Defined.

(** ** Calls in time order *)

Lemma reachable_at_reachable (t : timestamptz) (st : db) :
  reachable_at t st → reachable st.
Proof. induction 1; [apply reachable_seed | by apply reachable_step]. Qed.

Lemma reachable_at_run (calls : list (timestamptz * call)) (t : timestamptz) (st : db) :
  reachable_at t st → ascending t calls →
  reachable_at (last_time t calls) (run st calls).
Proof.
  revert t st. induction calls as [|[now c] calls IH]; intros t st Hr Hasc; simpl.
  - done.
  - destruct Hasc as [Hle Hasc]. apply IH; [|done]. by eapply reachable_at_step.
Qed.

(** The number of rows one call writes. *)
Lemma rows_written_le (st : db) (now : timestamptz) (c : call) :
  reachable st →
  (length (score_actions (commit st (rpc st now c)))
   ≤ length (score_actions st) + 4)%nat.
Proof.
  intros Hr. pose proof (reachable_db_ok st Hr) as Hok.
  destruct (rpc_wrote st now c Hok)
    as [|t row d nw Ht Hrow Hkind|Hc|a0 row Hc Hsel Hrow Hmax]; simpl.
  - lia.
  - rewrite length_app. simpl. lia.
  - rewrite length_app, reset_all_actions_length.
    pose proof (length_filter (λ r : string * score_row, score r.2 > 0)
                  (map_to_list (scores st))) as Hle.
    rewrite length_map_to_list in Hle.
    assert (size (scores st) = 4%nat) as Hsize.
    { rewrite <- size_dom, (teams_fixed st Hr). simpl.
      rewrite size_dom. reflexivity. }
    unfold positive_rows. lia.
  - rewrite length_app, length_fmap. simpl. lia.
Qed.

Lemma action_count_later (st : db) (now now' : timestamptz) (p : string) :
  now ≤ now' → action_count st now' p ≤ action_count st now p.
Proof.
  intros Hle. unfold action_count.
  induction (score_actions st) as [|a l IH]; [done|].
  rewrite !filter_cons.
  destruct (decide (recent_by now' p a)) as [H1|H1],
           (decide (recent_by now p a)) as [H2|H2]; simpl; try lia.
  destruct H2. destruct H1 as [? ?]. split; [done|lia].
Qed.

Lemma action_count_bound (t : timestamptz) (st : db) :
  reachable_at t st → ∀ now' p, t ≤ now' → action_count st now' p ≤ 8.
Proof.
  induction 1 as [t0|t st now c Hr IH Hle]; intros now' p Hnow'.
  - done.
  - pose proof (reachable_at_reachable t st Hr) as Hreach.
    rewrite action_count_step by by apply reachable_db_ok.
    specialize (IH now' p ltac:(lia)).
    destruct (decide (caller c = p ∧ now' - rate_limit_window < now)) as [[<- _]|_];
      [|lia].
    destruct (check_rate_limit st now (caller c)) eqn:Hadm.
    + rewrite rpc_rate_limited by done. simpl. rewrite Nat.sub_diag. lia.
    + apply check_rate_limit_false in Hadm. unfold rate_limit_max in Hadm.
      pose proof (action_count_later st now now' (caller c) Hnow').
      pose proof (rows_written_le st now c Hreach). lia.
Qed.

(** X16: when calls come in time order, a client never has more than eight
    rows within ten seconds of any later moment: at most four when a call
    is admitted, and at most four more written by that call. *)
Theorem rate_limit_burst_bound (t : timestamptz) (st : db) (now' : timestamptz)
    (p : string) :
  reachable_at t st → t ≤ now' → action_count st now' p ≤ 8.
Proof. intros Hr. by apply action_count_bound. Qed.

Lemma rate_limit_burst_bound_witness :
  action_count (run (seed_db 0) (all_teams_up ++ [(seconds 5, ResetAll "c1")]))
    (seconds 6) "c1" ≤ 8.
Proof.
  refine (rate_limit_burst_bound (seconds 5) _ (seconds 6) "c1"
            (reachable_at_run (all_teams_up ++ [(seconds 5, ResetAll "c1")]) 0
               (seed_db 0) (reachable_at_seed 0) _) _).
  - vm_compute. repeat split; discriminate.
  - vm_compute. discriminate.
Defined.

Lemma log_in_time_order_grow (l news : list score_action) (now : timestamptz) :
  log_in_time_order l →
  (∀ a, a ∈ l → created_at a ≤ now) →
  (∀ a, a ∈ news → created_at a = now) →
  log_in_time_order (l ++ news).
Proof.
  intros Hl Hold Hnews i j a b Ha Hb Hij.
  apply lookup_app_Some in Ha as [Ha|[Hi Ha]];
    apply lookup_app_Some in Hb as [Hb|[Hj Hb]].
  - by eapply Hl.
  - rewrite (Hnews b) by by eapply list_elem_of_lookup_2.
    apply Hold. by eapply list_elem_of_lookup_2.
  - apply lookup_lt_Some in Hb. lia.
  - rewrite (Hnews a), (Hnews b) by by eapply list_elem_of_lookup_2. lia.
Qed.

Lemma time_order_reachable (t : timestamptz) (st : db) :
  reachable_at t st →
  log_in_time_order (score_actions st)
  ∧ (∀ a, a ∈ score_actions st →
       created_at a ≤ t
       ∧ match undone_at a with
         | Some u => created_at a ≤ u ≤ t ∧ undone a = true
         | None => undone a = false
         end)
  ∧ (∀ p row, scores st !! p = Some row → updated_at row ≤ t).
Proof.
  induction 1 as [t0|t st now c Hr (IHord & IHrows & IHsc) Hle].
  - split_and!.
    + intros i j a b Ha. simpl in Ha. by rewrite lookup_nil in Ha.
    + intros a Ha. by apply elem_of_nil in Ha.
    + intros p row H. simpl in H.
      repeat (apply lookup_insert_Some in H as [[_ <-]|[_ H]]; [simpl; lia|]).
      by rewrite lookup_empty in H.
  - pose proof (reachable_db_ok st (reachable_at_reachable t st Hr)) as Hok.
    assert (∀ a, a ∈ score_actions st → created_at a ≤ now) as Hold.
    { intros a Ha. destruct (IHrows a Ha). lia. }
    assert (∀ a, a ∈ score_actions st →
              created_at a ≤ now
              ∧ match undone_at a with
                | Some u => created_at a ≤ u ≤ now ∧ undone a = true
                | None => undone a = false
                end) as Hrows.
    { intros a Ha. destruct (IHrows a Ha) as [? Hu]. split; [lia|].
      destruct (undone_at a); [|done]. split; [lia|tauto]. }
    assert (∀ p row, scores st !! p = Some row → updated_at row ≤ now) as Hsc.
    { intros p row Hrow. specialize (IHsc p row Hrow). lia. }
    assert (∀ news,
      (∀ a, a ∈ news → created_at a = now ∧ undone_at a = None ∧ undone a = false) →
      log_in_time_order (score_actions st ++ news)
      ∧ (∀ a, a ∈ score_actions st ++ news →
           created_at a ≤ now
           ∧ match undone_at a with
             | Some u => created_at a ≤ u ≤ now ∧ undone a = true
             | None => undone a = false
             end)) as Hgrow.
    { intros news Hnews. split.
      - apply (log_in_time_order_grow _ _ now); [done|done|].
        intros a Ha. by destruct (Hnews a Ha).
      - intros a [Ha|Ha]%elem_of_app; [by apply Hrows|].
        destruct (Hnews a Ha) as (-> & -> & ->). split; [lia|done]. }
    destruct (rpc_wrote st now c Hok)
      as [|p0 row d nw Ht Hrow Hkind|Hc|a0 row Hc Hsel Hrow Hmax]; simpl.
    + split_and!; done.
    + destruct (Hgrow [new_action (length (score_actions st)) now p0 d (score row) nw
                         (caller c) (call_type c) None]) as [? ?].
      { intros a Ha%list_elem_of_singleton. by subst a. }
      split_and!; [done..|].
      intros p row' [[_ <-]|[_ ?]]%lookup_insert_Some; [simpl; lia | by eapply Hsc].
    + destruct (Hgrow (reset_all_actions (length (score_actions st)) now (caller c)
                         (positive_rows st))) as [? ?].
      { by intros a (j & r & _ & ->)%reset_all_actions_elem. }
      split_and!; [done..|].
      intros p row'. destruct (decide (p ∈ (positive_rows st).*1)).
      * rewrite reset_rows_lookup_reset by done. intros [= <-]. simpl. lia.
      * rewrite reset_rows_lookup_other by done. apply Hsc.
    + pose proof Hsel as (Hin & (_ & Hfalse & _) & _)%select_undoable_Some.
      set (g := λ b, if decide (id b = id a0) then set_undone now b else b).
      assert (∀ b, created_at (g b) = created_at b) as Hg
        by (intros b; unfold g; by case_decide).
      split_and!.
      * apply (log_in_time_order_grow _ _ now).
        -- intros i j a b. rewrite !list_lookup_fmap.
           destruct (score_actions st !! i) as [a'|] eqn:Ha; [|done].
           destruct (score_actions st !! j) as [b'|] eqn:Hb; [|done].
           intros [= <-] [= <-] Hij. rewrite !Hg. by eapply IHord.
        -- intros a (b & -> & Hb)%list_elem_of_fmap_1. rewrite Hg. by apply Hold.
        -- intros a Ha%list_elem_of_singleton. by subst a.
      * intros a [(b & -> & Hb)%list_elem_of_fmap_1|Ha]%elem_of_app.
        -- destruct (Hrows b Hb) as [? Hu]. unfold g. case_decide; [|done].
           simpl. split; [done|]. split; [lia|done].
        -- apply list_elem_of_singleton in Ha. subst a. simpl. split; [lia|done].
      * intros p row' [[_ <-]|[_ ?]]%lookup_insert_Some; [simpl; lia | by eapply Hsc].
Qed.

(** X17: when calls come in time order, the log is in time order too; no
    row and no score is stamped later than the last call; a row has
    [undone_at] set, at or after its creation, exactly when it is flagged
    undone. *)
Theorem log_follows_the_clock (t : timestamptz) (st : db) :
  reachable_at t st →
  log_in_time_order (score_actions st)
  ∧ (∀ a, a ∈ score_actions st →
       created_at a ≤ t
       ∧ match undone_at a with
         | Some u => created_at a ≤ u ≤ t ∧ undone a = true
         | None => undone a = false
         end)
  ∧ (∀ p row, scores st !! p = Some row → updated_at row ≤ t).
Proof. apply time_order_reachable. Qed.

Lemma log_follows_the_clock_witness :
  log_in_time_order (score_actions (run (seed_db 0) up_then_down)).
Proof.
  refine (proj1 (log_follows_the_clock (seconds 2) _
            (reachable_at_run up_then_down 0 (seed_db 0) (reachable_at_seed 0) _))).
  vm_compute. repeat split; discriminate.
Defined.

(** * The page *)

(** ** [getClientId] *)

Lemma generateClientId_nonempty (date_now : Z) (random_tail : string) :
  generateClientId date_now random_tail ≠ "".
Proof. unfold generateClientId. simpl. discriminate. Qed.

(** X18: in the browser [getClientId] returns a non-empty id, leaves it
    stored under its key and touches no other key; a stored non-empty id is
    returned as it is, and a second call returns the same id and leaves the
    storage alone, whatever the clock and the random source yield by then.
    On the server the answer is the placeholder and the storage is neither
    read nor written. *)
Theorem getClientId_is_stable (date_now date_now' : Z) (random_tail random_tail' : string)
    (localStorage : gmap string string) :
  let id1 := (getClientId true date_now random_tail localStorage).1 in
  let ls1 := (getClientId true date_now random_tail localStorage).2 in
  id1 ≠ ""
  ∧ ls1 !! CLIENT_ID_KEY = Some id1
  ∧ (∀ k, k ≠ CLIENT_ID_KEY → ls1 !! k = localStorage !! k)
  ∧ (∀ v, localStorage !! CLIENT_ID_KEY = Some v → v ≠ "" →
       id1 = v ∧ ls1 = localStorage)
  ∧ getClientId true date_now' random_tail' ls1 = (id1, ls1)
  ∧ getClientId false date_now random_tail localStorage = ("server", localStorage).
Proof.
  unfold getClientId. simpl.
  destruct (localStorage !! CLIENT_ID_KEY) as [v|] eqn:Hv;
    [destruct (decide (v = "")) as [->|Hne]|]; simpl;
    rewrite ?lookup_insert_eq, ?Hv;
    rewrite ?decide_False by (done || apply generateClientId_nonempty);
    split_and!; try done;
    try apply generateClientId_nonempty;
    try (intros k Hk; by rewrite lookup_insert_ne);
    try (intros v' [= <-] ?; done).
Qed.

(** Digits and the sign are no underscores. *)
Lemma pretty_N_go_underscore_free (x : N) (s : string) :
  underscore_free s → underscore_free (pretty_N_go x s).
Proof.
  revert s. induction (N.lt_wf_0 x) as [x _ IH]; intros s Hs.
  destruct (decide (x = 0)%N) as [->|Hx].
  - by rewrite pretty_N_go_0.
  - rewrite pretty_N_go_step by lia. apply IH.
    + apply N.div_lt; lia.
    + split; [|done]. unfold pretty_N_char. by repeat case_match.
Qed.

Lemma pretty_Z_underscore_free (z : Z) : underscore_free (pretty z).
Proof.
  assert (∀ x : N, underscore_free (pretty x)) as HN.
  { intros x. unfold pretty, pretty_N. case_decide.
    - simpl. split; [discriminate|done].
    - by apply pretty_N_go_underscore_free. }
  destruct z as [|x|x]; unfold pretty, pretty_Z.
  - simpl. split; [discriminate|done].
  - apply (HN (Npos x)).
  - simpl. split; [discriminate|]. apply (HN (Npos x)).
Qed.

Lemma underscore_split (s1 s2 r1 r2 : string) :
  underscore_free s1 → underscore_free s2 →
  s1 +:+ "_" +:+ r1 = s2 +:+ "_" +:+ r2 →
  s1 = s2 ∧ r1 = r2.
Proof.
  revert s2. induction s1 as [|c s1 IH]; intros [|c' s2] H1 H2 Heq;
    cbn in H1, H2, Heq.
  - injection Heq as Heq. change (r1 = r2) in Heq. by subst r1.
  - injection Heq as Hc _. destruct H2 as [H2 _]. by subst c'.
  - injection Heq as Hc _. destruct H1 as [H1 _]. by subst c.
  - injection Heq as -> Heq.
    destruct (IH s2 (proj2 H1) (proj2 H2) Heq) as [-> ->]. done.
Qed.

(** X19: [generateClientId] gives different ids for different clock values
    or different random tails: the clock and the tail can be read back from
    the id. *)
Theorem generateClientId_inj (n1 n2 : Z) (r1 r2 : string) :
  generateClientId n1 r1 = generateClientId n2 r2 → n1 = n2 ∧ r1 = r2.
Proof.
  unfold generateClientId. intros Heq.
  apply (f_equal (λ s, match s with
                       | String _ (String _ (String _ (String _ (String _
                           (String _ (String _ s')))))) => s'
                       | _ => ""
                       end)) in Heq. simpl in Heq.
  apply underscore_split in Heq as [Hn ->];
    [|apply pretty_Z_underscore_free..].
  split; [|done]. by apply (inj pretty).
Qed.

Lemma generateClientId_inj_witness :
  1700000000000 = 1700000000000 ∧ "k3x9q2a7b" = "k3x9q2a7b".
Proof.
  exact (generateClientId_inj 1700000000000 1700000000000 "k3x9q2a7b" "k3x9q2a7b"
           eq_refl).
Defined.

(** ** The history and the scores the page keeps *)

Lemma on_action_insert_newest (l : list score_action) (a : score_action) :
  on_action_insert (Some a) (take 20 (reverse l)) = take 20 (reverse (l ++ [a])).
Proof.
  unfold on_action_insert. rewrite reverse_snoc.
  change (take 20 (a :: take 20 (reverse l))) with (a :: take 19 (take 20 (reverse l))).
  by rewrite take_take.
Qed.

Lemma on_action_update_newest (l : list score_action) (a' : score_action) :
  on_action_update (Some a') (take 20 (reverse l))
  = take 20 (reverse ((λ a, if decide (id a = id a') then a' else a) <$> l)).
Proof. unfold on_action_update. by rewrite fmap_take, fmap_reverse. Qed.

(** X20: the history of the page stays the newest 20 rows of the log,
    newest first: if it is so for a log, then after the insert handler ran
    on a row it is so for the log with that row appended, and after the
    update handler ran on a row it is so for the log with every row of that
    id replaced.  The history never holds more than 20 rows after an
    insert, and an event without a row changes nothing. *)
Theorem history_is_newest_20 (l view : list score_action) (a : score_action) :
  view = take 20 (reverse l) →
  on_action_insert (Some a) view = take 20 (reverse (l ++ [a]))
  ∧ on_action_update (Some a) view
    = take 20 (reverse ((λ b, if decide (id b = id a) then a else b) <$> l))
  ∧ (length (on_action_insert (Some a) view) ≤ 20)%nat
  ∧ length (on_action_update (Some a) view) = length view
  ∧ on_action_insert None view = view
  ∧ on_action_update None view = view.
Proof.
  intros ->. split_and!.
  - apply on_action_insert_newest.
  - apply on_action_update_newest.
  - unfold on_action_insert. rewrite length_take. lia.
  - unfold on_action_update. by rewrite length_fmap.
  - done.
  - done.
Qed.

Lemma history_is_newest_20_witness :
  on_action_insert
    (Some (new_action 2 (seconds 3) "blue" 1 2 3 "c1" "increment" None))
    (take 20 (reverse (score_actions (run (seed_db 0) up_then_down))))
  = take 20 (reverse (score_actions (run (seed_db 0) up_then_down)
       ++ [new_action 2 (seconds 3) "blue" 1 2 3 "c1" "increment" None])).
Proof.
  exact (proj1 (history_is_newest_20 (score_actions (run (seed_db 0) up_then_down)) _
                  (new_action 2 (seconds 3) "blue" 1 2 3 "c1" "increment" None)
                  eq_refl)).
Defined.

(** X21: a successful [undo_last_action] changes one row and adds one; if
    the history is the newest 20 rows of the log before the call, running
    the update handler on the reverted row as the call left it and then
    the insert handler on the undo row makes it the newest 20 rows of the
    log after the call. *)
Theorem history_follows_undo (st st' : db) (now : timestamptz) (p : string) (r : json) :
  db_ok st →
  undo_last_action st now p = Ok (st', r) →
  json_get "success" r = Some (JBool true) →
  ∃ a u,
    select_undoable st now p = Some a
    ∧ score_actions st' !! id a = Some (set_undone now a)
    ∧ last (score_actions st') = Some u
    ∧ on_action_insert (Some u)
        (on_action_update (Some (set_undone now a))
           (take 20 (reverse (score_actions st))))
      = take 20 (reverse (score_actions st')).
Proof.
  intros Hok Hrun Hs.
  apply undo_last_action_inv in Hrun
    as [[_ [[_ ->]|(_ & _ & ->)]]|(a & row & _ & Hsel & _ & _ & _ & Hlog & _)];
    [discriminate Hs..|].
  pose proof Hsel as (Hin & _ & _)%select_undoable_Some.
  pose proof (log_lookup_id st a Hok Hin) as Hida.
  assert (((λ b, if decide (id b = id (set_undone now a)) then set_undone now a else b)
             <$> score_actions st)
          = ((λ b, if decide (id b = id a) then set_undone now b else b)
               <$> score_actions st)) as Hmap.
  { apply list_fmap_ext. intros i b Hb. simpl.
    destruct (decide (id b = id a)) as [Hid|]; [|done].
    rewrite <- (ok_id st Hok i b Hb) in Hb. rewrite Hid, Hida in Hb.
    by injection Hb as ->. }
  exists a, (undo_action (length (score_actions st)) now p a (score row)).
  split_and!.
  - done.
  - rewrite Hlog, lookup_app_l.
    + rewrite list_lookup_fmap, Hida. simpl. by rewrite decide_True.
    + rewrite length_fmap. by apply lookup_lt_Some in Hida.
  - by rewrite Hlog, last_snoc.
  - rewrite on_action_update_newest, Hmap, on_action_insert_newest. by rewrite Hlog.
Qed.

Lemma history_follows_undo_witness :
  ∃ a u,
    select_undoable (run (seed_db 0) up_then_down) (seconds 4) "c1" = Some a
    ∧ on_action_insert (Some u)
        (on_action_update (Some (set_undone (seconds 4) a))
           (take 20 (reverse (score_actions (run (seed_db 0) up_then_down)))))
      = take 20 (reverse (score_actions
          (run (seed_db 0) (up_then_down ++ [(seconds 4, Undo "c1")])))).
Proof.
  destruct (history_follows_undo (run (seed_db 0) up_then_down)
              (run (seed_db 0) (up_then_down ++ [(seconds 4, Undo "c1")]))
              (seconds 4) "c1"
              (json_build_object
                 [("success", JBool true); ("team", JText "blue");
                  ("prev_score", JInt 0); ("new_score", JInt 5);
                  ("reverted_action_id", JUuid 1); ("undo_action_id", JUuid 2)]))
    as (a & u & Hsel & _ & _ & Hview).
  - exact (reachable_db_ok _ (reachable_run up_then_down _ (reachable_seed 0))).
  - vm_compute. reflexivity.
  - reflexivity.
  - exists a, u. split; [exact Hsel | exact Hview].
Defined.

(** X22: the scores of the page mirror the table: if the page holds the
    score of every row of [scores], each card shows the score of its team,
    0 for a name without a row, and the handler run on a changed row of a
    team leaves the page holding the scores of the table with that row
    written.  No team of a reachable database has the empty name, which
    the handler would drop. *)
Theorem displayed_scores_mirror_table (st : db) (view : gmap string Z) :
  reachable st →
  view = score <$> scores st →
  (∀ t, displayed_score view t = score_of st t)
  ∧ (∀ t row', is_Some (scores st !! t) →
       on_score_change (Some (Some t, Some (score row'))) view
       = score <$> <[t := row']> (scores st))
  ∧ (∀ t, on_score_change (Some (Some t, None)) view = view)
  ∧ on_score_change None view = view.
Proof.
  intros Hr ->. split_and!; try done.
  - intros t. unfold displayed_score, score_of, select_score. by rewrite lookup_fmap.
  - intros t row' Ht. unfold on_score_change.
    apply (team_known_iff st t Hr) in Ht.
    rewrite decide_False by (intros ->; destruct Ht as [|[|[|]]]; discriminate).
    by rewrite fmap_insert.
Qed.

Lemma displayed_scores_mirror_table_witness :
  displayed_score (score <$> scores (run (seed_db 0) up_then_down)) "blue"
  = score_of (run (seed_db 0) up_then_down) "blue".
Proof.
  exact (proj1 (displayed_scores_mirror_table (run (seed_db 0) up_then_down) _
                  (reachable_run up_then_down _ (reachable_seed 0)) eq_refl) "blue").
Defined.

(** ** What the page tells the user *)

(** The answers of the functions: success, or one of four refusals. *)
Lemma answer_cases (st st' : db) (now : timestamptz) (c : call) (r : json) :
  rpc st now c = Ok (st', r) →
  json_get "success" r = Some (JBool true)
  ∨ (json_get "success" r = Some (JBool false)
     ∧ st' = st
     ∧ ∃ msg, json_get "error" r = Some (JText msg)
              ∧ (msg = "Rate limited. Please wait a few seconds."
                 ∨ msg = "Team not found"
                 ∨ msg = "Score is already at 0"
                 ∨ msg = "No undoable action found (must be within 60 seconds)")).
Proof.
  destruct c as [t p n|t p n|t p|p|p]; simpl;
    unfold increment_team, decrement_team, reset_team, reset_all, undo_last_action;
    repeat step_body; intros [= <- <-];
    solve [ left; reflexivity
          | right; split; [reflexivity|]; split; [reflexivity|];
            eexists; split; [reflexivity|];
            solve [ left; reflexivity
                  | right; left; reflexivity
                  | right; right; left; reflexivity
                  | right; right; right; reflexivity ] ].
Qed.

(** X23: on every answer a function returns, [callRpc] either hands the
    answer on and shows nothing, when the answer says [success = true], or
    hands on [null] and shows one error toast with the text of the answer's
    [error], in which case the database is as it was.  The text is one of
    the four messages of the functions; the fallback text of [callRpc] is
    never shown for an answer of theirs. *)
Theorem callRpc_shows_server_error (st st' : db) (now : timestamptz) (c : call) (r : json) :
  rpc st now c = Ok (st', r) →
  (json_get "success" r = Some (JBool true)
   ∧ callRpc (RpcData r) = (Some r, None))
  ∨ (∃ msg,
       json_get "error" r = Some (JText msg)
       ∧ (msg = "Rate limited. Please wait a few seconds."
          ∨ msg = "Team not found"
          ∨ msg = "Score is already at 0"
          ∨ msg = "No undoable action found (must be within 60 seconds)")
       ∧ st' = st
       ∧ callRpc (RpcData r) = (None, Some (JText msg, "error"))).
Proof.
  intros [Hs|(Hs & -> & msg & He & Hmsg)]%answer_cases.
  - left. split; [done|]. unfold callRpc. by rewrite Hs.
  - right. exists msg. split_and!; try done.
    unfold callRpc. rewrite Hs, He. simpl.
    by destruct Hmsg as [->|[->|[->| ->]]].
Qed.

Lemma callRpc_shows_server_error_witness :
  callRpc (RpcData rate_limited)
  = (None, Some (JText "Rate limited. Please wait a few seconds.", "error")).
Proof.
  destruct (callRpc_shows_server_error (run (seed_db 0) five_calls)
              (run (seed_db 0) five_calls) (seconds 6)
              (Increment "blue" "c1" 1) rate_limited)
    as [[Hs _]|(msg & Hmsg & _ & _ & Hcall)].
  - reflexivity.
  - discriminate Hs.
  - injection Hmsg as <-. exact Hcall.
Defined.

(** X24: [handleUndo] shows exactly one toast for an answer of
    [undo_last_action]: the success toast when the call reverted a row,
    and then the log is one row longer, or an error toast with the reason,
    rate limit or nothing to undo, and then the database is as it was. *)
Theorem handleUndo_shows_one_toast (st st' : db) (now : timestamptz) (p : string)
    (r : json) :
  undo_last_action st now p = Ok (st', r) →
  (handleUndo (RpcData r) = [(JText "Action undone", "success")]
   ∧ is_Some (select_undoable st now p)
   ∧ length (score_actions st') = S (length (score_actions st)))
  ∨ (st' = st
     ∧ ((check_rate_limit st now p = true
         ∧ handleUndo (RpcData r)
           = [(JText "Rate limited. Please wait a few seconds.", "error")])
        ∨ (check_rate_limit st now p = false
           ∧ select_undoable st now p = None
           ∧ handleUndo (RpcData r)
             = [(JText "No undoable action found (must be within 60 seconds)",
                 "error")]))).
Proof.
  intros [[-> [[Hadm ->]|(Hadm & Hsel & ->)]]
         |(a & row & _ & Hsel & _ & _ & _ & Hlog & ->)]%undo_last_action_inv.
  - right. split; [done|]. left. done.
  - right. split; [done|]. right. done.
  - left. split_and!; [done | by rewrite Hsel |].
    rewrite Hlog, length_app, length_fmap. simpl. lia.
Qed.

Lemma handleUndo_shows_one_toast_witness :
  handleUndo (RpcData no_undoable_action)
  = [(JText "No undoable action found (must be within 60 seconds)", "error")].
Proof.
  destruct (handleUndo_shows_one_toast (seed_db 0) (seed_db 0) (seconds 1) "c1"
              no_undoable_action) as [(_ & [a Ha] & _)|(_ & [[Hadm _]|(_ & _ & Ht)])].
  - reflexivity.
  - discriminate Ha.
  - discriminate Hadm.
  - exact Ht.
Defined.

(** ** What the history panel prints *)

Lemma pretty_Z_opp (n : Z) : 0 < n → pretty (- n) = "-" +:+ pretty n.
Proof. destruct n as [|x|x]; [lia | reflexivity | lia]. Qed.

(** X25: for every row of a reachable log [formatActionType] prints one of
    five things: the amount from 1 to 100 after a plus sign for an
    increment, the amount actually taken off after a minus sign for a
    decrement, or one of the three words for a reset, a reset_all and an
    undo.  The branch that would print the raw type is never taken. *)
Theorem formatActionType_on_log (st : db) (a : score_action) :
  reachable st → a ∈ score_actions st →
  (∃ n, 1 ≤ n ≤ 100 ∧ action_type a = "increment" ∧ delta a = n
        ∧ formatActionType a = "+" +:+ pretty n)
  ∨ (∃ n, 1 ≤ n ≤ 100 ∧ action_type a = "decrement"
          ∧ n = prev_score a - new_score a
          ∧ formatActionType a = "-" +:+ pretty n)
  ∨ (action_type a = "reset" ∧ formatActionType a = "reset")
  ∨ (action_type a = "reset_all" ∧ formatActionType a = "reset all")
  ∨ (action_type a = "undo" ∧ formatActionType a = "undo").
Proof.
  intros Hr Hin.
  destruct (rows_typed st Hr a Hin)
    as (_ & _ & [(Hty & Hd & _)|[(Hty & Hd & Hnew & _)|[([Hty|Hty] & _)|(Hty & _)]]]);
    unfold formatActionType; rewrite Hty; simpl.
  - left. exists (delta a). done.
  - right; left. exists (- delta a). split_and!; [lia.. | done | lia |].
    rewrite <- pretty_Z_opp by lia. by rewrite Z.opp_involutive.
  - right; right; left. done.
  - right; right; right; left. done.
  - right; right; right; right. done.
Qed.

Lemma formatActionType_on_log_witness :
  new_action 1 (seconds 2) "blue" (-5) 5 0 "c1" "decrement" None
    ∈ score_actions (run (seed_db 0) up_then_down)
  ∧ formatActionType (new_action 1 (seconds 2) "blue" (-5) 5 0 "c1" "decrement" None) = "-5".
Proof.
  assert (new_action 1 (seconds 2) "blue" (-5) 5 0 "c1" "decrement" None
            ∈ score_actions (run (seed_db 0) up_then_down)) as Hin.
  { vm_compute. apply list_elem_of_further, list_elem_of_here. }
  split; [exact Hin|].
  destruct (formatActionType_on_log _ _
              (reachable_run up_then_down _ (reachable_seed 0)) Hin)
    as [(n & _ & Hty & _)|[(n & _ & _ & Hn & Hfmt)|[(Hty & _)|[(Hty & _)|(Hty & _)]]]];
    try discriminate Hty.
  simpl in Hn. subst n. exact Hfmt.
Defined.

(** X26: [formatTime] prints whole seconds below one minute, whole minutes
    from 1 to 59 below one hour, whole hours from 1 to 23 below one day and
    the date from one day on.  A time ahead of the browser's clock is
    printed as a negative number of seconds. *)
Theorem formatTime_buckets (diffMs : Z) (locale_date : string) :
  (diffMs < 60000 →
     formatTime diffMs locale_date = pretty (diffMs `div` 1000) +:+ "s ago")
  ∧ (diffMs < 0 →
       0 < - (diffMs `div` 1000)
       ∧ formatTime diffMs locale_date
         = "-" +:+ pretty (- (diffMs `div` 1000)) +:+ "s ago")
  ∧ (60000 ≤ diffMs < 3600000 →
       1 ≤ diffMs `div` 60000 < 60
       ∧ formatTime diffMs locale_date = pretty (diffMs `div` 60000) +:+ "m ago")
  ∧ (3600000 ≤ diffMs < 86400000 →
       1 ≤ diffMs `div` 3600000 < 24
       ∧ formatTime diffMs locale_date = pretty (diffMs `div` 3600000) +:+ "h ago")
  ∧ (86400000 ≤ diffMs → formatTime diffMs locale_date = locale_date).
Proof.
  assert (1000 * (diffMs `div` 1000) ≤ diffMs < 1000 * (diffMs `div` 1000) + 1000) as Hq.
  { pose proof (Z.mul_div_le diffMs 1000). pose proof (Z.mul_succ_div_gt diffMs 1000). lia. }
  assert ((diffMs `div` 1000) `div` 60 = diffMs `div` 60000) as H60.
  { rewrite Z.div_div by lia. done. }
  assert ((diffMs `div` 1000) `div` 3600 = diffMs `div` 3600000) as H3600.
  { rewrite Z.div_div by lia. done. }
  unfold formatTime. cbv zeta. rewrite H60, H3600.
  split_and!.
  - intros H. by rewrite decide_True by lia.
  - intros H. split; [lia|].
    rewrite decide_True by lia.
    replace (pretty (diffMs `div` 1000))
      with ("-" +:+ pretty (- (diffMs `div` 1000))); [done|].
    rewrite <- pretty_Z_opp by lia. by rewrite Z.opp_involutive.
  - intros H. split.
    + pose proof (Z.mul_div_le diffMs 60000).
      pose proof (Z.mul_succ_div_gt diffMs 60000). lia.
    + rewrite decide_False by lia. by rewrite decide_True by lia.
  - intros H. split.
    + pose proof (Z.mul_div_le diffMs 3600000).
      pose proof (Z.mul_succ_div_gt diffMs 3600000). lia.
    + rewrite decide_False by lia. rewrite decide_False by lia.
      by rewrite decide_True by lia.
  - intros H. rewrite decide_False by lia. rewrite decide_False by lia.
    by rewrite decide_False by lia.
Qed.

Lemma formatTime_buckets_witness :
  formatTime 59999 "1/2/2025" = "59s ago"
  ∧ formatTime (-1) "1/2/2025" = "-1s ago"
  ∧ formatTime 60000 "1/2/2025" = "1m ago"
  ∧ formatTime 86399999 "1/2/2025" = "23h ago"
  ∧ formatTime 86400000 "1/2/2025" = "1/2/2025".
Proof.
  split_and!.
  - exact (proj1 (formatTime_buckets 59999 "1/2/2025") eq_refl).
  - exact (proj2 (proj1 (proj2 (formatTime_buckets (-1) "1/2/2025")) eq_refl)).
  - refine (proj2 (proj1 (proj2 (proj2 (formatTime_buckets 60000 "1/2/2025"))) _)).
    lia.
  - refine (proj2 (proj1 (proj2 (proj2 (proj2 (formatTime_buckets 86399999 "1/2/2025")))) _)).
    lia.
  - refine (proj2 (proj2 (proj2 (proj2 (formatTime_buckets 86400000 "1/2/2025")))) _).
    lia.
Defined.
